(** * Snap-Color: the pixel pipeline of [utils/imageProcessing.ts]

    A shallow embedding of the image-processing module and of the records of
    [types.ts] it consumes, followed by the properties of the pipeline.

    Number model.  A JavaScript [number] is idealised as a real number: [+],
    [-], [*], [/] are the field operations of [R], [Math.max], [Math.min],
    [Math.abs] are [Rmax], [Rmin], [Rabs], [Math.pow(2, x)] is [Rpower 2 x],
    [Math.pow(x, n)] for a literal [n] is [x ^ n], [Math.exp], [Math.sin],
    [Math.cos], [Math.PI] are [exp], [sin], [cos], [PI].  Rounding error,
    infinities and NaN produced by arithmetic are outside this model.  The one
    place where the source can read outside an array (the LUT lookup) is
    modelled explicitly: the read yields [None] (JavaScript [undefined]) and
    the channel computed from it is [None] (NaN).

    Bytes of a [Uint8ClampedArray] are integers ([Z]); buffers are lists. *)

From Stdlib Require Import Reals Lra Lia ZArith List Bool.
Import ListNotations.

Open Scope R_scope.

(** ** Records of [types.ts] *)

Module ColorMixerChannel.
Record t : Type := mk { hue : R; saturation : R; luminance : R }.
End ColorMixerChannel.

Module LocalSettings.
Record t : Type := mk {
    exposure : R; contrast : R; highlights : R; shadows : R; texture : R;
    clarity : R; saturation : R; temperature : R; tint : R }.
End LocalSettings.

(** The anonymous [{ h, s, l }] object type of [targetColor], of the [hsl]
    argument of [calculateMaskAlpha] and of the result of
    [getMixerAdjustment]. *)
Module Hsl.
Record t : Type := mk { h : R; s : R; l : R }.
End Hsl.

Inductive MaskType : Type := color | linear.

Module Mask.
  (** [id], [name], [radius] and the bitmap fields are never read by the
      pipeline and are left out. *)
Record t : Type := mk {
    type : MaskType;
    targetColor : option Hsl.t;
    colorRange : R;
    x : R; y : R;
    feather : R;
    rotation : option R;
    invert : bool;
    opacity : R;
    settings : LocalSettings.t }.
End Mask.

Module ColorMixer.
Record t : Type := mk {
    red : ColorMixerChannel.t; orange : ColorMixerChannel.t;
    yellow : ColorMixerChannel.t; aqua : ColorMixerChannel.t;
    blue : ColorMixerChannel.t; magenta : ColorMixerChannel.t }.
End ColorMixer.

Module Crop.
Record t : Type := mk { x : R; y : R; width : R; height : R }.
End Crop.

Module EditSettings.
  (** [lutId] and the legacy skin fields are never read by [processImage]. *)
Record t : Type := mk {
    temperature : R; tint : R;
    exposure : R; contrast : R; highlights : R; shadows : R;
    texture : R; clarity : R; saturation : R;
    colorMixer : ColorMixer.t;
    lutIntensity : R;
    masks : list Mask.t;
    crop : option Crop.t;
    isMirrored : bool }.
End EditSettings.

Module Lut.
  (** [size] is the lattice edge length announced by the parser, [data] the
      flat [Float32Array]. *)
Record t : Type := mk { size : Z; data : list R }.
End Lut.

Module ImageData.
Record t : Type := mk { data : list Z; width : nat; height : nat }.
End ImageData.

Definition DEFAULT_MIXER_CHANNEL : ColorMixerChannel.t :=
  ColorMixerChannel.mk 0 0 0.

Definition DEFAULT_LOCAL_SETTINGS : LocalSettings.t :=
  LocalSettings.mk 0 0 0 0 0 0 0 0 0.

Definition DEFAULT_COLOR_MIXER : ColorMixer.t :=
  ColorMixer.mk DEFAULT_MIXER_CHANNEL DEFAULT_MIXER_CHANNEL
    DEFAULT_MIXER_CHANNEL DEFAULT_MIXER_CHANNEL DEFAULT_MIXER_CHANNEL
    DEFAULT_MIXER_CHANNEL.

Definition DEFAULT_SETTINGS : EditSettings.t :=
  EditSettings.mk 0 0 0 0 0 0 0 0 0 DEFAULT_COLOR_MIXER 100 [] None false.

(** ** ColorSpace *)

(** [const clamp = (value) => Math.max(0, Math.min(255, value))] *)
Definition clamp (value : R) : R := Rmax 0 (Rmin 255 value).

Definition rgbToHsl (r g b : R) : R * R * R :=
  let r := r / 255 in
  let g := g / 255 in
  let b := b / 255 in
  let max := Rmax (Rmax r g) b in
  let min := Rmin (Rmin r g) b in
  let l := (max + min) / 2 in
  if Req_EM_T max min then (0, 0, l)
  else
    let d := max - min in
    let s := if Rgt_dec l 0.5 then d / (2 - max - min) else d / (max + min) in
    let h :=
      if Req_EM_T max r then (g - b) / d + (if Rlt_dec g b then 6 else 0)
      else if Req_EM_T max g then (b - r) / d + 2
      else if Req_EM_T max b then (r - g) / d + 4
      else 0 in
    (h / 6, s, l).

(** The closure [hue2rgb] of [hslToRgb], with the captured [p] and [q] as
    arguments. *)
Definition hue2rgb (p q t : R) : R :=
  let t := if Rlt_dec t 0 then t + 1 else t in
  let t := if Rgt_dec t 1 then t - 1 else t in
  if Rlt_dec t (1 / 6) then p + (q - p) * 6 * t
  else if Rlt_dec t (1 / 2) then q
  else if Rlt_dec t (2 / 3) then p + (q - p) * (2 / 3 - t) * 6
  else p.

Definition hslToRgb (h s l : R) : R * R * R :=
  if Req_EM_T s 0 then (l * 255, l * 255, l * 255)
  else
    let q := if Rlt_dec l 0.5 then l * (1 + s) else l + s - l * s in
    let p := 2 * l - q in
    (hue2rgb p q (h + 1 / 3) * 255,
     hue2rgb p q h * 255,
     hue2rgb p q (h - 1 / 3) * 255).

(** ** ColorMixer *)

(** The closure [getWeight] of [getMixerAdjustment], with the captured
    [hDeg] as first argument. *)
Definition getWeight (hDeg center width : R) : R :=
  let diff := Rabs (hDeg - center) in
  let diff := if Rgt_dec diff 180 then 360 - diff else diff in
  Rmax 0 (1 - diff / width).

(** One line [if (w > 0) { dh += c.hue * w; ds += ...; dl += ...; }]. *)
Definition addBand (w : R) (c : ColorMixerChannel.t) (acc : Hsl.t) : Hsl.t :=
  if Rgt_dec w 0 then
    Hsl.mk (Hsl.h acc + ColorMixerChannel.hue c * w)
           (Hsl.s acc + ColorMixerChannel.saturation c * w)
           (Hsl.l acc + ColorMixerChannel.luminance c * w)
  else acc.

Definition getMixerAdjustment (hue : R) (mixer : option ColorMixer.t) : Hsl.t :=
  match mixer with
  | None => Hsl.mk 0 0 0
  | Some mixer =>
    let hDeg := hue * 360 in
    let wRed := getWeight hDeg 0 45 + getWeight hDeg 360 45 in
    let wOrange := getWeight hDeg 30 30 in
    let wYellow := getWeight hDeg 60 35 in
    let wAqua := getWeight hDeg 180 50 in
    let wBlue := getWeight hDeg 240 50 in
    let wMagenta := getWeight hDeg 300 50 in
    let acc := Hsl.mk 0 0 0 in
    let acc := addBand wRed (ColorMixer.red mixer) acc in
    let acc := addBand wOrange (ColorMixer.orange mixer) acc in
    let acc := addBand wYellow (ColorMixer.yellow mixer) acc in
    let acc := addBand wAqua (ColorMixer.aqua mixer) acc in
    let acc := addBand wBlue (ColorMixer.blue mixer) acc in
    let acc := addBand wMagenta (ColorMixer.magenta mixer) acc in
    acc
  end.

(** ** ToneEngine *)

Definition applyAdjustments (r g b : R) (settings : LocalSettings.t)
  : R * R * R :=
  let exposureMultiplier := Rpower 2 (LocalSettings.exposure settings / 50) in
  let contrastFactor :=
    (259 * (LocalSettings.contrast settings + 255))
    / (255 * (259 - LocalSettings.contrast settings)) in
  let saturationFactor := 1 + LocalSettings.saturation settings / 100 in
  let tempTintR :=
    1 + LocalSettings.temperature settings / 100
      + LocalSettings.tint settings / 100 in
  let tempTintB := 1 - LocalSettings.temperature settings / 100 in
  let tempTintG := 1 - LocalSettings.tint settings / 200 in
  let r := r * tempTintR in
  let g := g * tempTintG in
  let b := b * tempTintB in
  let r := r * exposureMultiplier in
  let g := g * exposureMultiplier in
  let b := b * exposureMultiplier in
  let r := contrastFactor * (r - 128) + 128 in
  let g := contrastFactor * (g - 128) + 128 in
  let b := contrastFactor * (b - 128) + 128 in
  let luma := (0.299 * r + 0.587 * g + 0.114 * b) / 255 in
  let '(r, g, b) :=
    if Req_EM_T (LocalSettings.shadows settings) 0 then (r, g, b)
    else
      let shadowMask := (1 - luma) ^ 3 in
      let shift := LocalSettings.shadows settings * shadowMask * 0.6 in
      (r + shift, g + shift, b + shift) in
  let '(r, g, b) :=
    if Req_EM_T (LocalSettings.highlights settings) 0 then (r, g, b)
    else
      let highlightMask := luma ^ 3 in
      let shift := LocalSettings.highlights settings * highlightMask * 0.6 in
      (r + shift, g + shift, b + shift) in
  let '(r, g, b) :=
    if Req_EM_T (LocalSettings.clarity settings) 0 then (r, g, b)
    else
      let sigma :=
        if Rlt_dec (LocalSettings.clarity settings) 0 then 0.5 else 0.2 in
      let midtoneMask := exp (- (luma - 0.5) ^ 2 / (2 * sigma * sigma)) in
      let clarityFactor :=
        1 + LocalSettings.clarity settings / 150 * midtoneMask in
      ((r - 128) * clarityFactor + 128,
       (g - 128) * clarityFactor + 128,
       (b - 128) * clarityFactor + 128) in
  let gray := 0.299 * r + 0.587 * g + 0.114 * b in
  (gray + (r - gray) * saturationFactor,
   gray + (g - gray) * saturationFactor,
   gray + (b - gray) * saturationFactor).

(** ** MaskEngine *)

(** [const feather = Math.max(0.01, mask.feather / 100)], the first statement
    of [calculateMaskAlpha]. *)
Definition maskFeather (mask : Mask.t) : R :=
  Rmax 0.01 (Mask.feather mask / 100).

(** [const f = Math.max(0.001, feather)]: the divisor of the linear ramp. *)
Definition linearDivisor (mask : Mask.t) : R :=
  Rmax 0.001 (maskFeather mask).

(** [dist]: the aspect-corrected offset from the mask centre projected on
    the normal of the separating line. *)
Definition linearDist (u v width height : R) (mask : Mask.t) : R :=
  let angleRad :=
    (match Mask.rotation mask with Some a => a | None => 0 end)
    * (PI / 180) in
  let nx := sin angleRad in
  let ny := - cos angleRad in
  let aspect := width / height in
  let dx := u - Mask.x mask in
  let dy := (v - Mask.y mask) * aspect in
  dx * nx + dy * ny.

(** The value of [alpha] when control reaches [if (mask.invert)]. *)
Definition maskAlphaPre (u v width height : R) (mask : Mask.t)
  (hsl : option Hsl.t) : R :=
  match Mask.type mask with
  | linear =>
    let dist := linearDist u v width height mask in
    let f := linearDivisor mask in
    let norm := 0.5 - dist / f in
    Rmax 0 (Rmin 1 norm)
  | color =>
    match Mask.targetColor mask, hsl with
    | Some target, Some hsl =>
      let h := Hsl.h hsl in
      let s := Hsl.s hsl in
      let hueDiff := Rabs (h - Hsl.h target) in
      let diff := Rmin hueDiff (1 - hueDiff) in
      let range := Mask.colorRange mask / 100 in
      let colorFeather := 0.1 in
      let alpha :=
        if Rlt_dec diff range then 1
        else if Rlt_dec diff (range + colorFeather)
             then 1 - (diff - range) / colorFeather
             else 0 in
      if Rgt_dec (Hsl.s target) 0.1 then
        let satDiff := Rabs (s - Hsl.s target) in
        if Rgt_dec satDiff 0.3
        then alpha * Rmax 0 (1 - (satDiff - 0.3) * 5)
        else alpha
      else alpha
    | _, _ => 0
    end
  end.

Definition calculateMaskAlpha (u v width height : R) (mask : Mask.t)
  (hsl : option Hsl.t) : R :=
  let alpha := maskAlphaPre u v width height mask hsl in
  let alpha := if Mask.invert mask then 1 - alpha else alpha in
  alpha * (Mask.opacity mask / 100).

(** ** FrameCompositor: the stages of the pixel loop of [processImage] *)

Definition globalLocalSettings (settings : EditSettings.t) : LocalSettings.t :=
  LocalSettings.mk
    (EditSettings.exposure settings) (EditSettings.contrast settings)
    (EditSettings.highlights settings) (EditSettings.shadows settings)
    (EditSettings.texture settings) (EditSettings.clarity settings)
    (EditSettings.saturation settings) (EditSettings.temperature settings)
    (EditSettings.tint settings).

(** [x !== 0] *)
Definition nonzero (x : R) : bool := if Req_EM_T x 0 then false else true.

(** Stage 2.  The body of [if (adj.h !== 0 || ...)] up to the call of
    [hslToRgb]: the triple that is passed to it. *)
Definition mixerHsl (h s l : R) (adj : Hsl.t) : R * R * R :=
  let h := h + Hsl.h adj / 360 in
  let s := clamp (s * (1 + Hsl.s adj / 100)) in
  let l := clamp (l * (1 + Hsl.l adj / 100)) in
  let h := if Rlt_dec h 0 then h + 1 else h in
  let h := if Rgt_dec h 1 then h - 1 else h in
  (h, s, l).

(** The arguments with which stage 2 calls [hslToRgb], or [None] when the
    guard [adj.h !== 0 || adj.s !== 0 || adj.l !== 0] fails and the call is
    not made. *)
Definition mixerCall (settings : EditSettings.t) (rgb : R * R * R)
  : option (R * R * R) :=
  let '(r, g, b) := rgb in
  let '(h, s, l) := rgbToHsl (clamp r) (clamp g) (clamp b) in
  let adj := getMixerAdjustment h (Some (EditSettings.colorMixer settings)) in
  if nonzero (Hsl.h adj) || nonzero (Hsl.s adj) || nonzero (Hsl.l adj)
  then Some (mixerHsl h s l adj)
  else None.

Definition mixerStage (settings : EditSettings.t) (rgb : R * R * R)
  : R * R * R :=
  match mixerCall settings rgb with
  | Some (h, s, l) => hslToRgb h s l
  | None => rgb
  end.

(** Stage 3, the coordinate mapping: mirroring, then cropping. *)
Definition remapUV (settings : EditSettings.t) (uv : R * R) : R * R :=
  let '(u, v) := uv in
  let u := if EditSettings.isMirrored settings then 1 - u else u in
  match EditSettings.crop settings with
  | Some crop =>
    (Crop.x crop + u * Crop.width crop, Crop.y crop + v * Crop.height crop)
  | None => (u, v)
  end.

(** [(u, v)] of the pixel that starts at byte [i] of the buffer. *)
Definition localUV (width height i : nat) : R * R :=
  let x := ((i / 4) mod width)%nat in
  let y := ((i / 4) / width)%nat in
  (INR x / INR width, INR y / INR height).

Definition maskUV (settings : EditSettings.t) (width height i : nat) : R * R :=
  remapUV settings (localUV width height i).

(** One iteration of [for (const mask of settings.masks)]. *)
Definition maskStep (uv : R * R) (width height : nat) (original : R * R * R)
  (rgb : R * R * R) (mask : Mask.t) : R * R * R :=
  let '(u, v) := uv in
  let '(originalR, originalG, originalB) := original in
  let '(r, g, b) := rgb in
  if Req_EM_T (Mask.opacity mask) 0 then rgb
  else
    let maskHsl :=
      match Mask.type mask with
      | color =>
        let '(oh, os, ol) := rgbToHsl originalR originalG originalB in
        Some (Hsl.mk oh os ol)
      | linear => None
      end in
    let alpha := calculateMaskAlpha u v (INR width) (INR height) mask maskHsl in
    if Rgt_dec alpha 0 then
      let '(mr, mg, mb) := applyAdjustments r g b (Mask.settings mask) in
      (r * (1 - alpha) + mr * alpha,
       g * (1 - alpha) + mg * alpha,
       b * (1 - alpha) + mb * alpha)
    else rgb.

Definition maskStage (settings : EditSettings.t) (width height i : nat)
  (original : R * R * R) (rgb : R * R * R) : R * R * R :=
  match EditSettings.masks settings with
  | [] => rgb
  | _ :: _ =>
    let uv := maskUV settings width height i in
    fold_left (maskStep uv width height original)
      (EditSettings.masks settings) rgb
  end.

(** Stage 4, the LUT. *)

(** [Math.round]: the nearest integer, halves towards [+infinity]. *)
Definition Math_round (x : R) : Z := Int_part (x + 1 / 2).

(** [data[idx]] on a typed array: [undefined] outside [0 .. length-1]. *)
Definition typedGet (data : list R) (idx : Z) : option R :=
  if (idx <? 0)%Z then None else nth_error data (Z.to_nat idx).

Definition lutIndex (lutSize : Z) (rgb : R * R * R) : Z :=
  let '(r, g, b) := rgb in
  let lutSizeSq := (lutSize * lutSize)%Z in
  let lutSizeMinus1 := (lutSize - 1)%Z in
  let nr := clamp r / 255 in
  let ng := clamp g / 255 in
  let nb := clamp b / 255 in
  let ri := Math_round (nr * IZR lutSizeMinus1) in
  let gi := Math_round (ng * IZR lutSizeMinus1) in
  let bi := Math_round (nb * IZR lutSizeMinus1) in
  ((ri + gi * lutSize + bi * lutSizeSq) * 3)%Z.

(** [c * (1 - lutIntensity) + sample * 255 * lutIntensity]; an [undefined]
    sample makes the channel NaN ([None]). *)
Definition lutBlend (c lutIntensity : R) (sample : option R) : option R :=
  match sample with
  | Some x => Some (c * (1 - lutIntensity) + x * 255 * lutIntensity)
  | None => None
  end.

(** The guard [idx < activeLut.data.length - 2]. *)
Definition lutGuard (lut : Lut.t) (idx : Z) : bool :=
  (idx <? Z.of_nat (length (Lut.data lut)) - 2)%Z.

(** The array indices that stage 4 reads for a pixel. *)
Definition lutReads (settings : EditSettings.t) (activeLut : option Lut.t)
  (rgb : R * R * R) : list Z :=
  match activeLut with
  | Some lut =>
    if Rgt_dec (EditSettings.lutIntensity settings) 0 then
      let idx := lutIndex (Lut.size lut) rgb in
      if lutGuard lut idx then [idx; (idx + 1)%Z; (idx + 2)%Z] else []
    else []
  | None => []
  end.

Definition lutStage (settings : EditSettings.t) (activeLut : option Lut.t)
  (rgb : R * R * R) : option R * option R * option R :=
  let '(r, g, b) := rgb in
  match activeLut with
  | Some lut =>
    if Rgt_dec (EditSettings.lutIntensity settings) 0 then
      let lutIntensity := EditSettings.lutIntensity settings / 100 in
      let idx := lutIndex (Lut.size lut) rgb in
      if lutGuard lut idx then
        (lutBlend r lutIntensity (typedGet (Lut.data lut) idx),
         lutBlend g lutIntensity (typedGet (Lut.data lut) (idx + 1)),
         lutBlend b lutIntensity (typedGet (Lut.data lut) (idx + 2)))
      else (Some r, Some g, Some b)
    else (Some r, Some g, Some b)
  | None => (Some r, Some g, Some b)
  end.

(** ** Buffers *)

(** The conversion applied by a store into a [Uint8ClampedArray]
    (ECMAScript [ToUint8Clamp]): NaN gives 0, the value is clamped to
    [0 .. 255] and rounded to the nearest integer, ties to even. *)
Definition ToUint8Clamp (c : option R) : Z :=
  match c with
  | None => 0%Z
  | Some x =>
    if Rle_dec x 0 then 0%Z
    else if Rle_dec 255 x then 255%Z
    else
      let f := Int_part x in
      if Rlt_dec (IZR f + 0.5) x then (f + 1)%Z
      else if Rlt_dec x (IZR f + 0.5) then f
      else if Z.even f then f else (f + 1)%Z
  end.

(** [a[i] = v] on a typed array: a store outside the array is ignored. *)
Fixpoint store (a : list Z) (i : nat) (v : Z) : list Z :=
  match a, i with
  | [], _ => []
  | _ :: t, O => v :: t
  | x :: t, S i => x :: store t i v
  end.

(** [a[i]] on the byte buffer, as a number.  Every read of [processImage] is
    inside the buffer of an [ImageData], whose length is
    [4 * width * height]; the default stands for a read that cannot occur. *)
Definition byteAt (a : list Z) (i : nat) : R := IZR (nth i a 0%Z).

(** [clamp(NaN)] is NaN. *)
Definition clampChannel (c : option R) : option R :=
  match c with Some x => Some (clamp x) | None => None end.

(** The body of the pixel loop up to the three stores: the values of
    [clamp(r)], [clamp(g)], [clamp(b)] for the pixel that starts at byte
    [i]. *)
Definition processPixel (settings : EditSettings.t) (activeLut : option Lut.t)
  (width height : nat) (data : list Z) (i : nat)
  : option R * option R * option R :=
  let originalR := byteAt data i in
  let originalG := byteAt data (i + 1) in
  let originalB := byteAt data (i + 2) in
  let rgb :=
    applyAdjustments originalR originalG originalB
      (globalLocalSettings settings) in
  let rgb := mixerStage settings rgb in
  let rgb :=
    maskStage settings width height i (originalR, originalG, originalB) rgb in
  let '(r, g, b) := lutStage settings activeLut rgb in
  (clampChannel r, clampChannel g, clampChannel b).

(** One iteration of [for (let i = 0; i < data.length; i += 4)]. *)
Definition pixelStep (settings : EditSettings.t) (activeLut : option Lut.t)
  (width height : nat) (data : list Z) (output : list Z) (i : nat) : list Z :=
  let '(r, g, b) := processPixel settings activeLut width height data i in
  let output := store output i (ToUint8Clamp r) in
  let output := store output (i + 1) (ToUint8Clamp g) in
  let output := store output (i + 2) (ToUint8Clamp b) in
  output.

(** The values taken by [i] in the pixel loop: [0, 4, 8, ...] below
    [data.length]. *)
Definition pixelOffsets (len : nat) : list nat :=
  map (fun k => (4 * k)%nat) (seq 0 ((len + 3) / 4)).

Definition pixelLoop (settings : EditSettings.t) (activeLut : option Lut.t)
  (width height : nat) (data : list Z) : list Z :=
  fold_left (pixelStep settings activeLut width height data)
    (pixelOffsets (length data)) data.

(** ** TextureFilter *)

(** The value stored in [output[i + c]] for the interior pixel [(x, y)]. *)
Definition textureValue (settings : EditSettings.t) (width : nat)
  (textureData : list Z) (y x c : nat) : Z :=
  let amount := EditSettings.texture settings / 100 in
  let i := ((y * width + x) * 4)%nat in
  let center := byteAt textureData (i + c) in
  let avg :=
    (byteAt textureData (((y - 1) * width + x - 1) * 4 + c)
     + byteAt textureData (((y - 1) * width + x) * 4 + c)
     + byteAt textureData (((y - 1) * width + x + 1) * 4 + c)
     + byteAt textureData ((y * width + x - 1) * 4 + c)
     + byteAt textureData ((y * width + x + 1) * 4 + c)
     + byteAt textureData (((y + 1) * width + x - 1) * 4 + c)
     + byteAt textureData (((y + 1) * width + x) * 4 + c)
     + byteAt textureData (((y + 1) * width + x + 1) * 4 + c)
     + center) / 9 in
  let finalAmount := if Rgt_dec amount 0 then amount * 0.5 else amount in
  let diff := center - avg in
  ToUint8Clamp (Some (clamp (center + diff * finalAmount))).

(** [for (let c = 0; c < 3; c++)] *)
Definition textureChannels (settings : EditSettings.t) (width : nat)
  (textureData : list Z) (y : nat) (output : list Z) (x : nat) : list Z :=
  fold_left
    (fun output c =>
       store output ((y * width + x) * 4 + c)
         (textureValue settings width textureData y x c))
    [0; 1; 2]%nat output.

(** [for (let x = 1; x < width - 1; x++)] *)
Definition textureRow (settings : EditSettings.t) (width : nat)
  (textureData : list Z) (output : list Z) (y : nat) : list Z :=
  fold_left (textureChannels settings width textureData y)
    (seq 1 (width - 2)) output.

(** [if (settings.texture !== 0) { ... }] with
    [for (let y = 1; y < height - 1; y++)] *)
Definition texturePass (settings : EditSettings.t) (width height : nat)
  (output : list Z) : list Z :=
  if Req_EM_T (EditSettings.texture settings) 0 then output
  else
    let textureData := output in
    fold_left (textureRow settings width textureData)
      (seq 1 (height - 2)) output.

Definition processImage (imageData : ImageData.t) (settings : EditSettings.t)
  (activeLut : option Lut.t) : ImageData.t :=
  let data := ImageData.data imageData in
  let width := ImageData.width imageData in
  let height := ImageData.height imageData in
  let output := pixelLoop settings activeLut width height data in
  let output := texturePass settings width height output in
  ImageData.mk output width height.

(** ** Auxiliary definitions used by the statements *)

(** The divisors that are not literals, in the order in which [rgbToHsl]
    evaluates them on the path it takes: none when [max === min], otherwise
    the divisor of [s] and then [d]. *)
Definition rgbToHslDivisors (r g b : R) : list R :=
  let r := r / 255 in
  let g := g / 255 in
  let b := b / 255 in
  let max := Rmax (Rmax r g) b in
  let min := Rmin (Rmin r g) b in
  let l := (max + min) / 2 in
  if Req_EM_T max min then []
  else
    let d := max - min in
    [if Rgt_dec l 0.5 then 2 - max - min else max + min; d].

(** The ColorMixer as the specification words it: a triangular weight on the
    angular distance, one weight per band. *)
Definition angularDistance (a b : R) : R :=
  let d := Rabs (a - b) in Rmin d (360 - d).

Definition triangularWeight (hueDegrees center width : R) : R :=
  Rmax 0 (1 - angularDistance hueDegrees center / width).

(** The sum over the six bands of each band's deltas times the weight given
    for that band, in the order red, orange, yellow, aqua, blue, magenta. *)
Definition bandSum (w : R * R * R * R * R * R) (mixer : ColorMixer.t) : Hsl.t :=
  let '(wRed, wOrange, wYellow, wAqua, wBlue, wMagenta) := w in
  let total (f : ColorMixerChannel.t -> R) :=
    f (ColorMixer.red mixer) * wRed
    + f (ColorMixer.orange mixer) * wOrange
    + f (ColorMixer.yellow mixer) * wYellow
    + f (ColorMixer.aqua mixer) * wAqua
    + f (ColorMixer.blue mixer) * wBlue
    + f (ColorMixer.magenta mixer) * wMagenta in
  Hsl.mk (total ColorMixerChannel.hue)
         (total ColorMixerChannel.saturation)
         (total ColorMixerChannel.luminance).

Definition mixerAdjustSpec (hueNormalized : R) (mixer : ColorMixer.t) : Hsl.t :=
  let hueDegrees := hueNormalized * 360 in
  bandSum (triangularWeight hueDegrees 0 45,
           triangularWeight hueDegrees 30 30,
           triangularWeight hueDegrees 60 35,
           triangularWeight hueDegrees 180 50,
           triangularWeight hueDegrees 240 50,
           triangularWeight hueDegrees 300 50) mixer.

(** A mixer in which only the red band's saturation delta is set. *)
Definition redSaturationOnly (d : R) : ColorMixer.t :=
  ColorMixer.mk (ColorMixerChannel.mk 0 d 0) DEFAULT_MIXER_CHANNEL
    DEFAULT_MIXER_CHANNEL DEFAULT_MIXER_CHANNEL DEFAULT_MIXER_CHANNEL
    DEFAULT_MIXER_CHANNEL.

(** A mixer in which only the blue band's saturation and luminance deltas
    are set, and the default settings with a given mixer. *)
Definition blueOnly (ds dl : R) : ColorMixer.t :=
  ColorMixer.mk DEFAULT_MIXER_CHANNEL DEFAULT_MIXER_CHANNEL
    DEFAULT_MIXER_CHANNEL DEFAULT_MIXER_CHANNEL (ColorMixerChannel.mk 0 ds dl)
    DEFAULT_MIXER_CHANNEL.

Definition settingsWithMixer (mixer : ColorMixer.t) : EditSettings.t :=
  EditSettings.mk 0 0 0 0 0 0 0 0 0 mixer 100 [] None false.

(** The coordinate remap as the specification words it: the flip of [u],
    then the crop. *)
Definition mirrorSpec (isMirrored : bool) (uv : R * R) : R * R :=
  if isMirrored then (1 - fst uv, snd uv) else uv.

Definition cropSpec (crop : option Crop.t) (uv : R * R) : R * R :=
  match crop with
  | Some c =>
    (Crop.x c + fst uv * Crop.width c, Crop.y c + snd uv * Crop.height c)
  | None => uv
  end.

(** A linear mask with the given feather, otherwise the mask that the
    control panel creates (centre, no rotation, full opacity). *)
Definition linearMask (feather : R) : Mask.t :=
  Mask.mk linear None 0.1 0.5 0.5 feather (Some 0) false 100
    DEFAULT_LOCAL_SETTINGS.

(** The default settings, mirrored and with the crop
    [{x: 0.25, y: 0, width: 0.5, height: 1}]. *)
Definition mirroredCroppedSettings : EditSettings.t :=
  EditSettings.mk 0 0 0 0 0 0 0 0 0 DEFAULT_COLOR_MIXER 100 []
    (Some (Crop.mk 0.25 0 0.5 1)) true.

(** A LUT whose announced size is 0 although it carries one triple. *)
Definition sizeZeroLut : Lut.t := Lut.mk 0 [0.5; 0.5; 0.5].

(** A 1x1 image. *)
Definition onePixel (r g b a : Z) : ImageData.t :=
  ImageData.mk [r; g; b; a] 1 1.

(** The positions of the alpha bytes in an RGBA buffer. *)
Definition isAlphaIndex (j : nat) : Prop := (j mod 4 = 3)%nat.

Definition isByte (z : Z) : Prop := (0 <= z <= 255)%Z.

(** [sameAlpha a b]: [b] has the length and the alpha bytes of [a]. *)
Definition sameAlpha (a b : list Z) : Prop :=
  length b = length a
  /\ forall j, isAlphaIndex j -> nth j b 0%Z = nth j a 0%Z.

(** [rgbBytes b]: every RGB position of [b] holds a byte. *)
Definition rgbBytes (b : list Z) : Prop :=
  forall j, (j < length b)%nat -> ~ isAlphaIndex j -> isByte (nth j b 0%Z).

(** [clamp01] of the specification. *)
Definition clamp01 (x : R) : R := Rmax 0 (Rmin 1 x).

(** ** The callers in [App] *)

(** [App.render], the red overlay of the active mask: the mask coordinate of
    the pixel that starts at byte [i], as the overlay loop computes it. *)
Definition overlayUV (currentSettings : EditSettings.t) (width height i : nat)
  : R * R :=
  let x := ((i / 4) mod width)%nat in
  let y := ((i / 4) / width)%nat in
  let u := INR x / INR width in
  let v := INR y / INR height in
  let u := if EditSettings.isMirrored currentSettings then 1 - u else u in
  match EditSettings.crop currentSettings with
  | Some crop =>
    (Crop.x crop + u * Crop.width crop, Crop.y crop + v * Crop.height crop)
  | None => (u, v)
  end.

(** One iteration of the overlay loop: the four bytes of the overlay pixel
    that starts at byte [i].  [overlayData] is a fresh [ImageData], all
    zero, and its buffer is a [Uint8ClampedArray]. *)
Definition overlayPixel (currentSettings : EditSettings.t)
  (activeMask : Mask.t) (width height : nat) (rawImgData : list Z) (i : nat)
  : Z * Z * Z * Z :=
  let '(u, v) := overlayUV currentSettings width height i in
  let hsl :=
    match Mask.type activeMask with
    | color =>
      let r := byteAt rawImgData i in
      let g := byteAt rawImgData (i + 1) in
      let b := byteAt rawImgData (i + 2) in
      let '(h, s, l) := rgbToHsl r g b in
      Some (Hsl.mk h s l)
    | linear => None
    end in
  let alpha :=
    calculateMaskAlpha u v (INR width) (INR height) activeMask hsl in
  if Rgt_dec alpha 0
  then (255%Z, 0%Z, 0%Z, ToUint8Clamp (Some (alpha * 130)))
  else (0%Z, 0%Z, 0%Z, 0%Z).

(** [App.handleExportAll]: the source rectangle [(sx, sy, sw, sh)] handed to
    [drawImage], for an image of the given natural size. *)
Definition exportSource (settings : EditSettings.t)
  (naturalWidth naturalHeight : R) : R * R * R * R :=
  let '(srcX, srcY, srcW, srcH) :=
    match EditSettings.crop settings with
    | Some crop =>
      (Crop.x crop * naturalWidth, Crop.y crop * naturalHeight,
       Crop.width crop * naturalWidth, Crop.height crop * naturalHeight)
    | None => (0, 0, naturalWidth, naturalHeight)
    end in
  if EditSettings.isMirrored settings then
    let realCropX :=
      match EditSettings.crop settings with
      | Some crop => Crop.x crop | None => 0 end in
    let realCropW :=
      match EditSettings.crop settings with
      | Some crop => Crop.width crop | None => 1 end in
    let mirrorSx := (1 - (realCropX + realCropW)) * naturalWidth in
    (mirrorSx,
     match EditSettings.crop settings with
     | Some crop => Crop.y crop * naturalHeight | None => 0 end,
     srcW, srcH)
  else (srcX, srcY, srcW, srcH).

(** [drawToBuffer] of [App.render]: the source rectangle of the preview. *)
Definition previewSource (settingsToUse : EditSettings.t)
  (naturalWidth naturalHeight : R) : R * R * R * R :=
  let '(srcX, srcY, srcW, srcH) :=
    match EditSettings.crop settingsToUse with
    | Some crop =>
      (Crop.x crop * naturalWidth, Crop.y crop * naturalHeight,
       Crop.width crop * naturalWidth, Crop.height crop * naturalHeight)
    | None => (0, 0, naturalWidth, naturalHeight)
    end in
  let srcX :=
    if EditSettings.isMirrored settingsToUse then
      match EditSettings.crop settingsToUse with
      | Some crop => (1 - (Crop.x crop + Crop.width crop)) * naturalWidth
      | None => srcX
      end
    else srcX in
  (srcX, srcY, srcW, srcH).


(** The crop rectangle being dragged, [cropRect] of [App]. *)
Module CropRect.
Record t : Type := mk { x : R; y : R; w : R; h : R }.
End CropRect.

(** The values of [activeHandle] other than [null]. *)
Module Handle.
Inductive name : Type := tl | tr | bl | br | t | b | l | r | move.
End Handle.

(** [const x = Math.max(-0.1, Math.min(1.1, ...))] of [handleMouseMove]. *)
Definition dragCoordinate (fraction : R) : R := Rmax (-0.1) (Rmin 1.1 fraction).

(** The first part of a corner drag: the new size that keeps the aspect
    ratio, before it is fitted into the image. *)
Definition cornerSize (aspect rawW rawH : R) : R * R :=
  let errX := Rabs (rawH - rawW / aspect) in
  let errY := Rabs (rawW - rawH * aspect) in
  if Rlt_dec errX errY then (rawW, rawW / aspect)
  else (rawH * aspect, rawH).

(** The updater that [handleMouseMove] passes to [setCropRect], for the
    mouse position [(x, y)] already limited by [dragCoordinate]. *)
Definition dragCrop (activeHandle : Handle.name) (isAltPressed : bool) (x y : R)
  (prev : CropRect.t) : CropRect.t :=
  let nx := CropRect.x prev in
  let ny := CropRect.y prev in
  let nw := CropRect.w prev in
  let nh := CropRect.h prev in
  let prevCenterX := nx + nw / 2 in
  let prevCenterY := ny + nh / 2 in
  let aspect := CropRect.w prev / CropRect.h prev in
  let corner (fixedX fixedY : R) : R * R :=
    cornerSize aspect (Rabs (x - fixedX)) (Rabs (y - fixedY)) in
  let finish (nx ny nw nh : R) : CropRect.t :=
    let '(nx, ny, nw, nh) :=
      if isAltPressed then
        let maxW := Rmin prevCenterX (1 - prevCenterX) * 2 in
        let maxH := Rmin prevCenterY (1 - prevCenterY) * 2 in
        let nw := Rmin (Rabs (x - prevCenterX) * 2) maxW in
        let nh := Rmin (Rabs (y - prevCenterY) * 2) maxH in
        (prevCenterX - nw / 2, prevCenterY - nh / 2, nw, nh)
      else (nx, ny, nw, nh) in
    CropRect.mk nx ny (Rmax 0.01 nw) (Rmax 0.01 nh) in
  match activeHandle with
  | Handle.move =>
    let dx := x - (CropRect.x prev + CropRect.w prev / 2) in
    let dy := y - (CropRect.y prev + CropRect.h prev / 2) in
    let newX := Rmax 0 (Rmin (1 - CropRect.w prev) (CropRect.x prev + dx)) in
    let newY := Rmax 0 (Rmin (1 - CropRect.h prev) (CropRect.y prev + dy)) in
    CropRect.mk newX newY (CropRect.w prev) (CropRect.h prev)
  | Handle.br =>
    let fixedX := CropRect.x prev in
    let fixedY := CropRect.y prev in
    let '(newW, newH) := corner fixedX fixedY in
    let '(newW, newH) :=
      if Rgt_dec (fixedX + newW) 1
      then (1 - fixedX, (1 - fixedX) / aspect) else (newW, newH) in
    let '(newW, newH) :=
      if Rgt_dec (fixedY + newH) 1
      then ((1 - fixedY) * aspect, 1 - fixedY) else (newW, newH) in
    CropRect.mk fixedX fixedY (Rmax 0.01 newW) (Rmax 0.01 newH)
  | Handle.tl =>
    let fixedX := CropRect.x prev + CropRect.w prev in
    let fixedY := CropRect.y prev + CropRect.h prev in
    let '(newW, newH) := corner fixedX fixedY in
    let '(newW, newH) :=
      if Rlt_dec (fixedX - newW) 0
      then (fixedX, fixedX / aspect) else (newW, newH) in
    let '(newW, newH) :=
      if Rlt_dec (fixedY - newH) 0
      then (fixedY * aspect, fixedY) else (newW, newH) in
    CropRect.mk (fixedX - Rmax 0.01 newW) (fixedY - Rmax 0.01 newH)
      (Rmax 0.01 newW) (Rmax 0.01 newH)
  | Handle.tr =>
    let fixedX := CropRect.x prev in
    let fixedY := CropRect.y prev + CropRect.h prev in
    let '(newW, newH) := corner fixedX fixedY in
    let '(newW, newH) :=
      if Rgt_dec (fixedX + newW) 1
      then (1 - fixedX, (1 - fixedX) / aspect) else (newW, newH) in
    let '(newW, newH) :=
      if Rlt_dec (fixedY - newH) 0
      then (fixedY * aspect, fixedY) else (newW, newH) in
    CropRect.mk fixedX (fixedY - Rmax 0.01 newW)
      (Rmax 0.01 newW) (Rmax 0.01 newH)
  | Handle.bl =>
    let fixedX := CropRect.x prev + CropRect.w prev in
    let fixedY := CropRect.y prev in
    let '(newW, newH) := corner fixedX fixedY in
    let '(newW, newH) :=
      if Rlt_dec (fixedX - newW) 0
      then (fixedX, fixedX / aspect) else (newW, newH) in
    let '(newW, newH) :=
      if Rgt_dec (fixedY + newH) 1
      then ((1 - fixedY) * aspect, 1 - fixedY) else (newW, newH) in
    CropRect.mk (fixedX - Rmax 0.01 newW) fixedY
      (Rmax 0.01 newW) (Rmax 0.01 newH)
  | Handle.t =>
    let nh := nh + (ny - y) in
    let ny := y in
    let '(ny, nh) := if Rlt_dec ny 0 then (0, nh + ny) else (ny, nh) in
    let '(ny, nh) :=
      if Rlt_dec nh 0.01
      then (CropRect.y prev + CropRect.h prev - 0.01, 0.01) else (ny, nh) in
    finish nx ny nw nh
  | Handle.b =>
    let nh := y - ny in
    let nh := if Rgt_dec (ny + nh) 1 then 1 - ny else nh in
    let nh := if Rlt_dec nh 0.01 then 0.01 else nh in
    finish nx ny nw nh
  | Handle.l =>
    let nw := nw + (nx - x) in
    let nx := x in
    let '(nx, nw) := if Rlt_dec nx 0 then (0, nw + nx) else (nx, nw) in
    let '(nx, nw) :=
      if Rlt_dec nw 0.01
      then (CropRect.x prev + CropRect.w prev - 0.01, 0.01) else (nx, nw) in
    finish nx ny nw nh
  | Handle.r =>
    let nw := x - nx in
    let nw := if Rgt_dec (nx + nw) 1 then 1 - nx else nw in
    let nw := if Rlt_dec nw 0.01 then 0.01 else nw in
    finish nx ny nw nh
  end.

(** The crop rectangle lies in the unit square and is at least 0.01 wide
    and high. *)
Definition validCrop (c : CropRect.t) : Prop :=
  0 <= CropRect.x c /\ 0 <= CropRect.y c
  /\ 0.01 <= CropRect.w c /\ 0.01 <= CropRect.h c
  /\ CropRect.x c + CropRect.w c <= 1 /\ CropRect.y c + CropRect.h c <= 1.

(** The undo history of [App]: the state variables [settingsMap],
    [history] and [historyIndex].  A snapshot (a [Record<string,
    EditSettings>], deep-copied through JSON) is a value of type [A]. *)
Module AppState.
Record t (A : Type) : Type :=
  mk { settingsMap : A; history : list A; historyIndex : Z }.
Arguments mk {A}.
Arguments settingsMap {A}.
Arguments history {A}.
Arguments historyIndex {A}.
End AppState.

(** [pushHistory]: [prev.slice(0, historyIndex + 1)], [push], [shift] when
    more than 50 entries, and [Math.min(prev + 1, 49)] for the index.
    [historyIndex] is at least -1, so the end of the slice is not
    negative. *)
Definition pushHistory {A : Type} (newSettings : A) (st : AppState.t A)
  : AppState.t A :=
  let next :=
    firstn (Z.to_nat (AppState.historyIndex st + 1)) (AppState.history st) in
  let next := next ++ [newSettings] in
  let next := if (50 <? length next)%nat then tl next else next in
  AppState.mk (AppState.settingsMap st) next
    (Z.min (AppState.historyIndex st + 1) 49).

(** [updateSetting] with [saveToHistory], at the level of the whole map:
    [next] becomes the current map and is pushed. *)
Definition commitSettings {A : Type} (next : A) (st : AppState.t A)
  : AppState.t A :=
  let st := pushHistory next st in
  AppState.mk next (AppState.history st) (AppState.historyIndex st).

(** [history[i]] passed through [JSON.parse(JSON.stringify(...))]: outside
    the array the value is [undefined] and [JSON.parse] throws, before any
    state is set. *)
Definition snapshotAt {A : Type} (history : list A) (i : Z) : option A :=
  if (i <? 0)%Z then None else nth_error history (Z.to_nat i).

Definition undo {A : Type} (st : AppState.t A) : AppState.t A :=
  if (0 <? AppState.historyIndex st)%Z then
    let prevIdx := (AppState.historyIndex st - 1)%Z in
    match snapshotAt (AppState.history st) prevIdx with
    | Some s => AppState.mk s (AppState.history st) prevIdx
    | None => st
    end
  else st.

Definition redo {A : Type} (st : AppState.t A) : AppState.t A :=
  if (AppState.historyIndex st
      <? Z.of_nat (length (AppState.history st)) - 1)%Z then
    let nextIdx := (AppState.historyIndex st + 1)%Z in
    match snapshotAt (AppState.history st) nextIdx with
    | Some s => AppState.mk s (AppState.history st) nextIdx
    | None => st
    end
  else st.

(** The index points into a history of at most 50 snapshots (or is -1 for
    the empty history). *)
Definition historyOk {A : Type} (st : AppState.t A) : Prop :=
  (-1 <= AppState.historyIndex st
   < Z.of_nat (length (AppState.history st)))%Z
  /\ (length (AppState.history st) <= 50)%nat.

(** The current map is the snapshot at the index. *)
Definition inSync {A : Type} (st : AppState.t A) : Prop :=
  snapshotAt (AppState.history st) (AppState.historyIndex st)
  = Some (AppState.settingsMap st).

(** ** Auxiliary definitions for the further properties *)

(** A LUT whose lattice holds, at [(i, j, k)], the triple
    [(i, j, k) / (size - 1)], at the flat index that stage 4 computes. *)
Definition isIdentityLut (lut : Lut.t) : Prop :=
  forall i j k : Z,
    (0 <= i < Lut.size lut)%Z -> (0 <= j < Lut.size lut)%Z ->
    (0 <= k < Lut.size lut)%Z ->
    let idx :=
      ((i + j * Lut.size lut + k * (Lut.size lut * Lut.size lut)) * 3)%Z in
    typedGet (Lut.data lut) idx = Some (IZR i / IZR (Lut.size lut - 1))
    /\ typedGet (Lut.data lut) (idx + 1)
       = Some (IZR j / IZR (Lut.size lut - 1))
    /\ typedGet (Lut.data lut) (idx + 2)
       = Some (IZR k / IZR (Lut.size lut - 1)).

(** The identity LUT of size 2. *)
Definition identityLut2 : Lut.t :=
  Lut.mk 2 [0; 0; 0;  1; 0; 0;  0; 1; 0;  1; 1; 0;
            0; 0; 1;  1; 0; 1;  0; 1; 1;  1; 1; 1].

(** Byte [j] of the buffer after the pixel loop: an alpha byte is the
    input's, an RGB byte is the stored channel of its own pixel. *)
Definition pixelByte (settings : EditSettings.t) (activeLut : option Lut.t)
  (width height : nat) (data : list Z) (j : nat) : Z :=
  let '(r, g, b) :=
    processPixel settings activeLut width height data (4 * (j / 4)) in
  match (j mod 4)%nat with
  | 0%nat => ToUint8Clamp r
  | 1%nat => ToUint8Clamp g
  | 2%nat => ToUint8Clamp b
  | _ => nth j data 0%Z
  end.

(** The "before" settings of the compare view: the defaults with the
    current crop and mirror flag (and any LUT intensity). *)
Definition beforeSettings (lutIntensity : R) (crop : option Crop.t)
  (isMirrored : bool) : EditSettings.t :=
  EditSettings.mk 0 0 0 0 0 0 0 0 0 DEFAULT_COLOR_MIXER lutIntensity []
    crop isMirrored.

(** A flat 3 x 3 image and settings with a texture amount. *)
Definition flatImage3 : list Z :=
  concat (repeat [10; 20; 30; 255]%Z 9).

Definition textureSettings (texture : R) : EditSettings.t :=
  EditSettings.mk 0 0 0 0 0 0 texture 0 0 DEFAULT_COLOR_MIXER 100 [] None
    false.

(** Pixel [(x, y)] lies on the one-pixel border of a [width] x [height]
    image (or the image has no interior in that direction). *)
Definition onBorder (width height x y : nat) : Prop :=
  (x = 0 \/ width - 1 <= x \/ y = 0 \/ height - 1 <= y)%nat.

(** * Properties *)

(** ** Tactics *)

(** [nodec t] succeeds when [t] contains no undecided comparison. *)
Ltac nodec t :=
  lazymatch t with
  | context [Req_EM_T _ _] => fail
  | context [Rlt_dec _ _] => fail
  | context [Rgt_dec _ _] => fail
  | context [Rle_dec _ _] => fail
  | context [Rcase_abs _] => fail
  | _ => idtac
  end.

(** Case analysis on every comparison of the goal, innermost first; the
    branches that contradict the context are closed. *)
Ltac rdecide :=
  repeat match goal with
  | |- context [Req_EM_T ?a ?b] =>
    nodec a; nodec b; destruct (Req_EM_T a b); try lra
  | |- context [Rlt_dec ?a ?b] =>
    nodec a; nodec b; destruct (Rlt_dec a b); try lra
  | |- context [Rgt_dec ?a ?b] =>
    nodec a; nodec b; destruct (Rgt_dec a b); try lra
  | |- context [Rle_dec ?a ?b] =>
    nodec a; nodec b; destruct (Rle_dec a b); try lra
  | |- context [Rcase_abs ?a] => nodec a; destruct (Rcase_abs a); try lra
  end.

(** Quotient and remainder of [n] by 4, for [lia]. *)
Ltac divmod4 n :=
  pose proof (Nat.div_mod_eq n 4);
  pose proof (Nat.mod_upper_bound n 4 ltac:(discriminate)).

(** Equality of triples, componentwise. *)
Lemma triple_eq {A : Type} (a b c a' b' c' : A) :
  a = a' -> b = b' -> c = c' -> (a, b, c) = (a', b', c').
Proof. intros -> -> ->. reflexivity. Qed.

Tactic Notation "triple" tactic(tac) := apply triple_eq; tac.

(** ** ToneEngine *)

Lemma applyAdjustments_zero (r g b : R) :
  applyAdjustments r g b (LocalSettings.mk 0 0 0 0 0 0 0 0 0) = (r, g, b).
Proof.
  unfold applyAdjustments; simpl.
  destruct (Req_EM_T 0 0) as [_ | H]; [| contradiction H; reflexivity].
  replace (0 / 50) with 0 by lra.
  rewrite Rpower_O by lra.
  triple field.
Qed.

(** C6.  With all nine fields of the [LocalSettings] equal to zero,
    [applyAdjustments] returns its input triple; over the reals the identity
    is exact, so it holds within any tolerance. *)
Theorem applyAdjustments_zero_identity (r g b : R) :
  applyAdjustments r g b (LocalSettings.mk 0 0 0 0 0 0 0 0 0) = (r, g, b).
Proof. exact (applyAdjustments_zero r g b). Qed.

(** ** ColorSpace *)

(** The chroma part of [hslToRgb]: [q] is the largest and [p] the smallest
    channel. *)
Lemma hsl_q_is_max (mx mn : R) :
  0 <= mn -> mn < mx -> mx <= 1 ->
  let l := (mx + mn) / 2 in
  let d := mx - mn in
  let s := if Rgt_dec l 0.5 then d / (2 - mx - mn) else d / (mx + mn) in
  0 < s /\
  (if Rlt_dec l 0.5 then l * (1 + s) else l + s - l * s) = mx.
Proof.
  intros H0 Hlt H1 l d s. subst l d s.
  destruct (Rgt_dec ((mx + mn) / 2) 0.5) as [Hg | Hg].
  - assert (Hpos : 0 < 2 - mx - mn) by lra.
    split.
    + apply Rdiv_lt_0_compat; lra.
    + destruct (Rlt_dec ((mx + mn) / 2) 0.5); [lra |]. field. lra.
  - assert (Hpos : 0 < mx + mn) by lra.
    split.
    + apply Rdiv_lt_0_compat; lra.
    + destruct (Rlt_dec ((mx + mn) / 2) 0.5); [field; lra |].
      assert (E : mx + mn = 1) by lra. rewrite E. lra.
Qed.

(** [hue2rgb] on each piece of its domain, and its two wrap-arounds. *)
Lemma hue2rgb_rising (p q t : R) :
  0 <= t <= 1 / 6 -> hue2rgb p q t = p + (q - p) * 6 * t.
Proof. intros H. unfold hue2rgb. rdecide.
  assert (E : t = 1 / 6) by lra. rewrite E. lra.
Qed.

Lemma hue2rgb_top (p q t : R) :
  1 / 6 <= t <= 1 / 2 -> hue2rgb p q t = q.
Proof. intros H. unfold hue2rgb. rdecide.
  assert (E : t = 1 / 2) by lra. rewrite E. lra.
Qed.

Lemma hue2rgb_falling (p q t : R) :
  1 / 2 <= t <= 2 / 3 -> hue2rgb p q t = p + (q - p) * (2 / 3 - t) * 6.
Proof. intros H. unfold hue2rgb. rdecide.
  assert (E : t = 2 / 3) by lra. rewrite E. lra.
Qed.

Lemma hue2rgb_bottom (p q t : R) :
  2 / 3 <= t <= 1 -> hue2rgb p q t = p.
Proof. intros H. unfold hue2rgb. rdecide.
  
Qed.

Lemma hue2rgb_wrap_neg (p q t : R) :
  -1 <= t < 0 -> hue2rgb p q t = hue2rgb p q (t + 1).
Proof. intros H. unfold hue2rgb. rdecide.
  
Qed.

Lemma hue2rgb_wrap_pos (p q t : R) :
  1 < t <= 2 -> hue2rgb p q t = hue2rgb p q (t - 1).
Proof. intros H. unfold hue2rgb. rdecide.
  
Qed.

(** The three channels produced by [hslToRgb] for a hue in the sextants
    around red ([h = k/6] or [(k+6)/6]), green ([(k+2)/6]) and blue
    ([(k+4)/6]). *)
Lemma hue_red_upper (p q k : R) :
  0 <= k <= 1 ->
  hue2rgb p q ((k + 0) / 6 + 1 / 3) = q /\
  hue2rgb p q ((k + 0) / 6) = p + (q - p) * k /\
  hue2rgb p q ((k + 0) / 6 - 1 / 3) = p.
Proof.
  intros Hk. repeat split.
  - rewrite hue2rgb_top; lra.
  - rewrite hue2rgb_rising; lra.
  - rewrite hue2rgb_wrap_neg by lra. rewrite hue2rgb_bottom; lra.
Qed.

Lemma hue_red_lower (p q k : R) :
  -1 <= k < 0 ->
  hue2rgb p q ((k + 6) / 6 + 1 / 3) = q /\
  hue2rgb p q ((k + 6) / 6) = p /\
  hue2rgb p q ((k + 6) / 6 - 1 / 3) = p + (q - p) * - k.
Proof.
  intros Hk. repeat split.
  - rewrite hue2rgb_wrap_pos by lra. rewrite hue2rgb_top; lra.
  - rewrite hue2rgb_bottom; lra.
  - rewrite hue2rgb_falling; lra.
Qed.

Lemma hue_green (p q k : R) :
  -1 <= k <= 1 ->
  hue2rgb p q ((k + 2) / 6 + 1 / 3) = p + (q - p) * Rmax 0 (- k) /\
  hue2rgb p q ((k + 2) / 6) = q /\
  hue2rgb p q ((k + 2) / 6 - 1 / 3) = p + (q - p) * Rmax 0 k.
Proof.
  intros Hk. repeat split.
  - destruct (Rle_dec k 0).
    + rewrite hue2rgb_falling by lra. rewrite Rmax_right; lra.
    + rewrite hue2rgb_bottom by lra. rewrite Rmax_left; lra.
  - rewrite hue2rgb_top; lra.
  - destruct (Rlt_dec k 0).
    + rewrite hue2rgb_wrap_neg by lra. rewrite hue2rgb_bottom by lra.
      rewrite Rmax_left; lra.
    + rewrite hue2rgb_rising by lra. rewrite Rmax_right; lra.
Qed.

Lemma hue_blue (p q k : R) :
  -1 <= k <= 1 ->
  hue2rgb p q ((k + 4) / 6 + 1 / 3) = p + (q - p) * Rmax 0 k /\
  hue2rgb p q ((k + 4) / 6) = p + (q - p) * Rmax 0 (- k) /\
  hue2rgb p q ((k + 4) / 6 - 1 / 3) = q.
Proof.
  intros Hk. repeat split.
  - destruct (Rle_dec k 0).
    + rewrite hue2rgb_bottom by lra. rewrite Rmax_left; lra.
    + rewrite hue2rgb_wrap_pos by lra. rewrite hue2rgb_rising by lra.
      rewrite Rmax_right; lra.
  - destruct (Rle_dec k 0).
    + rewrite hue2rgb_falling by lra. rewrite Rmax_right; lra.
    + rewrite hue2rgb_bottom by lra. rewrite Rmax_left; lra.
  - rewrite hue2rgb_top; lra.
Qed.

Lemma max3_spec (x y z : R) :
  let m := Rmax (Rmax x y) z in
  x <= m /\ y <= m /\ z <= m /\ (m = x \/ m = y \/ m = z).
Proof. unfold Rmax. rdecide; lra. Qed.

Lemma min3_spec (x y z : R) :
  let m := Rmin (Rmin x y) z in
  m <= x /\ m <= y /\ m <= z /\ (m = x \/ m = y \/ m = z).
Proof. unfold Rmin. rdecide; lra. Qed.

Lemma quotient_bounds (a d lo hi : R) :
  0 < d -> lo * d <= a <= hi * d -> lo <= a / d <= hi /\ a / d * d = a.
Proof.
  intros Hd [Hlo Hhi].
  assert (E : a / d * d = a) by (field; lra).
  split; [| exact E]. split; nra.
Qed.

Lemma roundtrip_normalized (x y z : R) :
  0 <= x <= 1 -> 0 <= y <= 1 -> 0 <= z <= 1 ->
  (let '(h, s, l) := rgbToHsl (x * 255) (y * 255) (z * 255) in hslToRgb h s l)
  = (x * 255, y * 255, z * 255).
Proof.
  intros Hx Hy Hz. unfold rgbToHsl. cbv zeta.
  replace (x * 255 / 255) with x by (field; lra).
  replace (y * 255 / 255) with y by (field; lra).
  replace (z * 255 / 255) with z by (field; lra).
  destruct (max3_spec x y z) as (Mx & My & Mz & Mcase).
  destruct (min3_spec x y z) as (mx' & my' & mz' & mcase).
  set (mx := Rmax (Rmax x y) z) in *.
  set (mn := Rmin (Rmin x y) z) in *.
  destruct (Req_EM_T mx mn) as [E | NE].
  - unfold hslToRgb. destruct (Req_EM_T 0 0) as [_ | F]; [| lra].
    triple lra.
  - assert (Hlt : mn < mx) by lra.
    destruct (hsl_q_is_max mx mn) as [Hs Hq]; try lra.
    cbv zeta in Hs, Hq.
    set (s := if Rgt_dec ((mx + mn) / 2) 0.5
              then (mx - mn) / (2 - mx - mn) else (mx - mn) / (mx + mn)) in *.
    unfold hslToRgb.
    destruct (Req_EM_T s 0) as [F | _]; [lra |].
    rewrite Hq.
    replace (2 * ((mx + mn) / 2) - mx) with mn by field.
    assert (Hd : 0 < mx - mn) by lra.
    destruct (Req_EM_T mx x) as [Ex | Nx].
    + destruct (Rlt_dec y z) as [Lyz | Lyz].
      * destruct (quotient_bounds (y - z) (mx - mn) (-1) 0 Hd) as [Hk Ek];
          [lra |].
        set (k := (y - z) / (mx - mn)) in *.
        assert (Hk' : -1 <= k < 0) by (split; [lra | nra]).
        destruct (hue_red_lower mn mx k Hk') as (-> & -> & ->).
        triple nra.
      * destruct (quotient_bounds (y - z) (mx - mn) 0 1 Hd) as [Hk Ek];
          [lra |].
        set (k := (y - z) / (mx - mn)) in *.
        destruct (hue_red_upper mn mx k Hk) as (-> & -> & ->).
        triple nra.
    + destruct (Req_EM_T mx y) as [Ey | Ny].
      * destruct (quotient_bounds (z - x) (mx - mn) (-1) 1 Hd) as [Hk Ek];
          [lra |].
        set (k := (z - x) / (mx - mn)) in *.
        destruct (hue_green mn mx k Hk) as (-> & -> & ->).
        unfold Rmax. rdecide; (triple nra).
      * destruct (Req_EM_T mx z) as [Ez | Nz]; [| lra].
        destruct (quotient_bounds (x - y) (mx - mn) (-1) 1 Hd) as [Hk Ek];
          [lra |].
        set (k := (x - y) / (mx - mn)) in *.
        destruct (hue_blue mn mx k Hk) as (-> & -> & ->).
        unfold Rmax. rdecide; (triple nra).
Qed.

Lemma hslToRgb_rgbToHsl_exact (r g b : R) :
  0 <= r <= 255 -> 0 <= g <= 255 -> 0 <= b <= 255 ->
  (let '(h, s, l) := rgbToHsl r g b in hslToRgb h s l) = (r, g, b).
Proof.
  intros Hr Hg Hb.
  pose proof (roundtrip_normalized (r / 255) (g / 255) (b / 255)) as H.
  replace (r / 255 * 255) with r in H by field.
  replace (g / 255 * 255) with g in H by field.
  replace (b / 255 * 255) with b in H by field.
  apply H; lra.
Qed.

Lemma rgbToHsl_achromatic (x : R) :
  rgbToHsl x x x = (0, 0, x / 255) /\ rgbToHslDivisors x x x = [].
Proof.
  unfold rgbToHsl, rgbToHslDivisors. cbv zeta.
  unfold Rmax, Rmin. rdecide; (split; [triple lra | reflexivity]).
Qed.

Lemma rgbToHsl_divisors_nonzero (r g b : R) :
  0 <= r <= 255 -> 0 <= g <= 255 -> 0 <= b <= 255 ->
  Forall (fun d => d <> 0) (rgbToHslDivisors r g b).
Proof.
  intros Hr Hg Hb. unfold rgbToHslDivisors. cbv zeta.
  destruct (max3_spec (r / 255) (g / 255) (b / 255)) as (Mx & My & Mz & Mc).
  destruct (min3_spec (r / 255) (g / 255) (b / 255)) as (mx & my & mz & mc).
  set (M := Rmax (Rmax (r / 255) (g / 255)) (b / 255)) in *.
  set (m := Rmin (Rmin (r / 255) (g / 255)) (b / 255)) in *.
  destruct (Req_EM_T M m) as [E | NE]; [constructor |].
  assert (0 <= m /\ m < M /\ M <= 1) as (H0 & H1 & H2) by (repeat split; lra).
  repeat constructor.
  - destruct (Rgt_dec ((M + m) / 2) 0.5); lra.
  - lra.
Qed.

(** C7.  For channels in [0 .. 255], [hslToRgb] applied to the result of
    [rgbToHsl] gives back every channel within 1/255 (over the reals the
    round trip is exact); no divisor evaluated by [rgbToHsl] is zero; and an
    achromatic input [r = g = b] yields [h = 0] and [s = 0] on the path that
    divides by nothing but literals. *)
Theorem rgbToHsl_hslToRgb_roundtrip (r g b : R) :
  0 <= r <= 255 -> 0 <= g <= 255 -> 0 <= b <= 255 ->
  (let '(h, s, l) := rgbToHsl r g b in
   let '(r', g', b') := hslToRgb h s l in
   Rabs (r' - r) <= 1 / 255 /\ Rabs (g' - g) <= 1 / 255
   /\ Rabs (b' - b) <= 1 / 255)
  /\ Forall (fun d => d <> 0) (rgbToHslDivisors r g b)
  /\ (r = g -> g = b ->
      rgbToHsl r g b = (0, 0, r / 255) /\ rgbToHslDivisors r g b = []).
Proof.
  intros Hr Hg Hb. split; [| split].
  - pose proof (hslToRgb_rgbToHsl_exact r g b Hr Hg Hb) as H.
    destruct (rgbToHsl r g b) as [[h s] l]. rewrite H.
    replace (r - r) with 0 by ring. replace (g - g) with 0 by ring.
    replace (b - b) with 0 by ring. rewrite Rabs_R0. lra.
  - apply rgbToHsl_divisors_nonzero; assumption.
  - intros -> ->. apply rgbToHsl_achromatic.
Qed.

Lemma rgbToHsl_hslToRgb_roundtrip_witness :
  (let '(h, s, l) := rgbToHsl 200 100 50 in
   let '(r', g', b') := hslToRgb h s l in
   Rabs (r' - 200) <= 1 / 255 /\ Rabs (g' - 100) <= 1 / 255
   /\ Rabs (b' - 50) <= 1 / 255)
  /\ Forall (fun d => d <> 0) (rgbToHslDivisors 200 100 50)
  /\ (200 = 100 -> 100 = 50 ->
      rgbToHsl 200 100 50 = (0, 0, 200 / 255)
      /\ rgbToHslDivisors 200 100 50 = []).
Proof. apply (rgbToHsl_hslToRgb_roundtrip 200 100 50); lra. Defined.

(** ** ColorMixer *)

Lemma getWeight_nonneg (hDeg center width : R) :
  0 <= getWeight hDeg center width.
Proof. unfold getWeight. apply Rmax_l. Qed.

(** On the hue circle the code's distance is the wrapped angular distance. *)
Lemma getWeight_triangular (hDeg center width : R) :
  0 <= hDeg <= 360 -> 0 <= center <= 360 ->
  getWeight hDeg center width = triangularWeight hDeg center width.
Proof.
  intros Hh Hc. unfold getWeight, triangularWeight, angularDistance.
  f_equal. f_equal. f_equal.
  unfold Rmin, Rabs. rdecide.
Qed.

(** The second term of [wRed] repeats the first: [getWeight] already wraps
    the distance, so the centre 360 is the centre 0. *)
Lemma getWeight_360 (hDeg width : R) :
  0 <= hDeg <= 360 -> getWeight hDeg 360 width = getWeight hDeg 0 width.
Proof.
  intros Hh. unfold getWeight. f_equal. f_equal. f_equal.
  unfold Rabs. rdecide.
Qed.

Lemma addBand_sum (w : R) (c : ColorMixerChannel.t) (acc : Hsl.t) :
  0 <= w ->
  addBand w c acc =
  Hsl.mk (Hsl.h acc + ColorMixerChannel.hue c * w)
         (Hsl.s acc + ColorMixerChannel.saturation c * w)
         (Hsl.l acc + ColorMixerChannel.luminance c * w).
Proof.
  intros Hw. unfold addBand. destruct (Rgt_dec w 0) as [_ | N]; [reflexivity |].
  assert (E : w = 0) by lra. rewrite E. destruct acc as [h s l]; simpl.
  f_equal; ring.
Qed.

(** What [getMixerAdjustment] computes on a normalized hue: the weighted sum
    over the bands with the triangular weights of orange, yellow, aqua, blue
    and magenta, and twice the triangular weight of red. *)
Theorem getMixerAdjustment_weighted_sum (hue : R) (mixer : ColorMixer.t) :
  0 <= hue <= 1 ->
  getMixerAdjustment hue (Some mixer) =
  bandSum (2 * triangularWeight (hue * 360) 0 45,
           triangularWeight (hue * 360) 30 30,
           triangularWeight (hue * 360) 60 35,
           triangularWeight (hue * 360) 180 50,
           triangularWeight (hue * 360) 240 50,
           triangularWeight (hue * 360) 300 50) mixer.
Proof.
  intros Hh. assert (Hd : 0 <= hue * 360 <= 360) by lra.
  unfold getMixerAdjustment. cbv zeta.
  rewrite (getWeight_360 _ _ Hd).
  rewrite !addBand_sum;
    try apply getWeight_nonneg;
    try (apply Rplus_le_le_0_compat; apply getWeight_nonneg).
  rewrite !getWeight_triangular by lra.
  unfold bandSum; simpl. f_equal; ring.
Qed.

Lemma getWeight_at_centre (width : R) : getWeight 0 0 width = 1.
Proof.
  unfold getWeight. replace (0 - 0) with 0 by ring. rewrite Rabs_R0.
  destruct (Rgt_dec 0 180); [lra |].
  unfold Rdiv. rewrite Rmult_0_l. rewrite Rmax_right; lra.
Qed.

(** C2.  At hue exactly 0, with only the red band's saturation delta set to
    [d], [getMixerAdjustment] returns [ds = 2 * d]: the red band enters with
    weight [getWeight(0, 45) + getWeight(360, 45) = 2], where the weighted sum
    of the specification gives [d]. *)
Theorem getMixerAdjustment_red_at_hue_0 (d : R) :
  getMixerAdjustment 0 (Some (redSaturationOnly d)) = Hsl.mk 0 (2 * d) 0
  /\ mixerAdjustSpec 0 (redSaturationOnly d) = Hsl.mk 0 d 0.
Proof.
  assert (H0 : 0 <= 0 <= 1) by lra.
  assert (Hd : 0 <= 0 * 360 <= 360) by lra.
  assert (W0 : triangularWeight (0 * 360) 0 45 = 1).
  { rewrite <- getWeight_triangular by lra.
    replace (0 * 360) with 0 by ring. apply getWeight_at_centre. }
  split.
  - rewrite (getMixerAdjustment_weighted_sum 0 _ H0). rewrite W0.
    unfold bandSum, redSaturationOnly, DEFAULT_MIXER_CHANNEL; simpl.
    f_equal; ring.
  - unfold mixerAdjustSpec. cbv zeta. rewrite W0.
    unfold bandSum, redSaturationOnly, DEFAULT_MIXER_CHANNEL; simpl.
    f_equal; ring.
Qed.

Lemma getMixerAdjustment_zero (hue : R) (mixer : ColorMixer.t) :
  mixer = DEFAULT_COLOR_MIXER ->
  getMixerAdjustment hue (Some mixer) = Hsl.mk 0 0 0.
Proof.
  intros ->.
  unfold getMixerAdjustment, addBand, DEFAULT_COLOR_MIXER,
    DEFAULT_MIXER_CHANNEL; simpl.
  repeat match goal with
         | |- context [Rgt_dec ?a ?b] => destruct (Rgt_dec a b)
         end;
    simpl; repeat rewrite Rmult_0_l; repeat rewrite Rplus_0_r; reflexivity.
Qed.

Lemma mixerCall_zero_mixer (settings : EditSettings.t) (rgb : R * R * R) :
  EditSettings.colorMixer settings = DEFAULT_COLOR_MIXER ->
  mixerCall settings rgb = None.
Proof.
  intros Hm. unfold mixerCall. destruct rgb as [[r g] b].
  destruct (rgbToHsl (clamp r) (clamp g) (clamp b)) as [[h s] l].
  rewrite (getMixerAdjustment_zero h _ Hm). simpl.
  unfold nonzero. destruct (Req_EM_T 0 0) as [_ | F]; [reflexivity | lra].
Qed.

Lemma mixerStage_zero_mixer (settings : EditSettings.t) (rgb : R * R * R) :
  EditSettings.colorMixer settings = DEFAULT_COLOR_MIXER ->
  mixerStage settings rgb = rgb.
Proof.
  intros Hm. unfold mixerStage. rewrite (mixerCall_zero_mixer _ _ Hm).
  reflexivity.
Qed.

(** C10.  When the six channels of the colour mixer are all zero, stage 2 of
    the pixel loop does not call [hslToRgb] and returns the triple it was
    given, exactly. *)
Theorem mixerStage_zero_mixer_identity (settings : EditSettings.t)
  (rgb : R * R * R) :
  EditSettings.colorMixer settings = DEFAULT_COLOR_MIXER ->
  mixerCall settings rgb = None /\ mixerStage settings rgb = rgb.
Proof.
  intros Hm. split.
  - apply mixerCall_zero_mixer; exact Hm.
  - apply mixerStage_zero_mixer; exact Hm.
Qed.

Lemma mixerStage_zero_mixer_identity_witness :
  EditSettings.colorMixer DEFAULT_SETTINGS = DEFAULT_COLOR_MIXER /\
  mixerCall DEFAULT_SETTINGS (200, 100, 50) = None /\
  mixerStage DEFAULT_SETTINGS (200, 100, 50) = (200, 100, 50).
Proof.
  split; [reflexivity |].
  apply (mixerStage_zero_mixer_identity DEFAULT_SETTINGS (200, 100, 50)).
  reflexivity.
Defined.

(** ** ColorMixer: the caller *)

Lemma clamp_inside (x : R) : 0 <= x <= 255 -> clamp x = x.
Proof. intros H. unfold clamp, Rmax, Rmin. rdecide. Qed.

Lemma clamp_range (x : R) : 0 <= clamp x <= 255.
Proof. unfold clamp, Rmax, Rmin. rdecide. Qed.

Lemma clamp01_range (x : R) : 0 <= clamp01 x <= 1.
Proof. unfold clamp01, Rmax, Rmin. rdecide. Qed.

(** The saturation and the luminance that stage 2 hands to [hslToRgb] are
    clamped with the byte [clamp]: a product between 1 and 255 is passed on
    as it is. *)
Lemma mixerHsl_overshoot (h s l : R) (adj : Hsl.t) :
  1 < s * (1 + Hsl.s adj / 100) <= 255 ->
  1 < l * (1 + Hsl.l adj / 100) <= 255 ->
  snd (fst (mixerHsl h s l adj)) = s * (1 + Hsl.s adj / 100)
  /\ snd (mixerHsl h s l adj) = l * (1 + Hsl.l adj / 100).
Proof.
  intros Hs Hl. unfold mixerHsl; simpl.
  rewrite !clamp_inside by lra. split; reflexivity.
Qed.

Lemma rgbToHsl_blue : rgbToHsl 0 0 255 = (2 / 3, 1, 1 / 2).
Proof. unfold rgbToHsl, Rmax, Rmin. rdecide. triple lra. Qed.

Lemma triangularWeight_blue :
  triangularWeight (2 / 3 * 360) 0 45 = 0
  /\ triangularWeight (2 / 3 * 360) 30 30 = 0
  /\ triangularWeight (2 / 3 * 360) 60 35 = 0
  /\ triangularWeight (2 / 3 * 360) 180 50 = 0
  /\ triangularWeight (2 / 3 * 360) 240 50 = 1
  /\ triangularWeight (2 / 3 * 360) 300 50 = 0.
Proof.
  unfold triangularWeight, angularDistance, Rabs, Rmin, Rmax.
  repeat split; rdecide.
Qed.

(** C1.  For the pure blue pixel (0, 0, 255), whose HSL is (2/3, 1, 1/2), and
    a mixer whose blue band has saturation +50 and luminance +150, stage 2
    calls [hslToRgb] with saturation 3/2 and luminance 5/4: the products
    [s * (1 + ds/100)] and [l * (1 + dl/100)] exceed 1 and are passed on
    unchanged, not as 1. *)
Theorem mixerCall_blue_overshoot :
  mixerCall (settingsWithMixer (blueOnly 50 150)) (0, 0, 255)
  = Some (2 / 3, 3 / 2, 5 / 4).
Proof.
  unfold mixerCall.
  rewrite !clamp_inside by lra. rewrite rgbToHsl_blue.
  rewrite getMixerAdjustment_weighted_sum by lra.
  destruct triangularWeight_blue as (-> & -> & -> & -> & -> & ->).
  unfold bandSum, settingsWithMixer, blueOnly, DEFAULT_MIXER_CHANNEL; simpl.
  replace (0 * (2 * 0) + 0 * 0 + 0 * 0 + 0 * 0 + 0 * 1 + 0 * 0) with 0 by ring.
  replace (0 * (2 * 0) + 0 * 0 + 0 * 0 + 0 * 0 + 50 * 1 + 0 * 0) with 50
    by ring.
  replace (0 * (2 * 0) + 0 * 0 + 0 * 0 + 0 * 0 + 150 * 1 + 0 * 0) with 150
    by ring.
  unfold nonzero. destruct (Req_EM_T 0 0) as [_ | F]; [| lra].
  destruct (Req_EM_T 50 0) as [F | _]; [lra |]. simpl.
  f_equal. unfold mixerHsl; simpl.
  rewrite !clamp_inside by lra.
  rdecide. triple lra.
Qed.

(** ** MaskEngine *)

(** The second floor of the feather never applies: [feather] was already
    raised to 0.01. *)
Lemma linearDivisor_floor (mask : Mask.t) :
  linearDivisor mask = Rmax 0.01 (Mask.feather mask / 100).
Proof.
  unfold linearDivisor, maskFeather.
  apply Rmax_right. pose proof (Rmax_l 0.01 (Mask.feather mask / 100)). lra.
Qed.

(** C3, as the claim states it, fails: for feather 0.5 the divisor of the
    linear ramp is 0.01, not 0.5 / 100, and at [v = 0.496] the alpha is 0.1
    where the divisor 0.005 would give 0. *)
Lemma linearDivisor_small_feather_counterexample :
  0.1 < Mask.feather (linearMask 0.5) < 1
  /\ linearDivisor (linearMask 0.5) = 0.01
  /\ linearDivisor (linearMask 0.5) <> Mask.feather (linearMask 0.5) / 100
  /\ maskAlphaPre 0.5 0.496 1 1 (linearMask 0.5) None = 0.1
  /\ clamp01 (0.5 - linearDist 0.5 0.496 1 1 (linearMask 0.5)
                    / Rmax 0.001 (Mask.feather (linearMask 0.5) / 100)) = 0.
Proof.
  assert (D : linearDivisor (linearMask 0.5) = 0.01).
  { rewrite linearDivisor_floor. simpl. apply Rmax_left. lra. }
  assert (L : linearDist 0.5 0.496 1 1 (linearMask 0.5) = 0.004).
  { unfold linearDist; simpl. rewrite Rmult_0_l, sin_0, cos_0. lra. }
  split; [simpl; lra |]. split; [exact D |]. split; [| split].
  - rewrite D. simpl. lra.
  - unfold maskAlphaPre; simpl. rewrite D, L.
    unfold Rmax, Rmin. rdecide.
  - rewrite L. simpl. unfold clamp01, Rmax, Rmin. rdecide.
Qed.

(** C3, amended.  For a linear mask the alpha before invert and opacity is
    [0.5 - dist / f] clamped to [0, 1], where [dist] is the aspect-corrected
    offset from the mask centre projected on [(sin theta, -cos theta)] and
    the divisor is [f = max(0.01, feather / 100)]; for a feather between 0.1
    and 1 the divisor is 0.01. *)
Theorem maskAlphaPre_linear (u v width height : R) (mask : Mask.t)
  (hsl : option Hsl.t) :
  Mask.type mask = linear ->
  let theta :=
    (match Mask.rotation mask with Some a => a | None => 0 end)
    * (PI / 180) in
  let dist :=
    (u - Mask.x mask) * sin theta
    + (v - Mask.y mask) * (width / height) * - cos theta in
  let f := Rmax 0.01 (Mask.feather mask / 100) in
  maskAlphaPre u v width height mask hsl = clamp01 (0.5 - dist / f)
  /\ linearDivisor mask = f
  /\ (0.1 < Mask.feather mask < 1 -> linearDivisor mask = 0.01).
Proof.
  intros Ht theta dist f. repeat split.
  - unfold maskAlphaPre. rewrite Ht. rewrite linearDivisor_floor.
    reflexivity.
  - apply linearDivisor_floor.
  - intros Hf. rewrite linearDivisor_floor. apply Rmax_left. lra.
Qed.

Lemma maskAlphaPre_linear_witness :
  Mask.type (linearMask 0.5) = linear /\
  maskAlphaPre 0.5 0.496 1 1 (linearMask 0.5) None
  = clamp01 (0.5 - ((0.5 - 0.5) * sin (0 * (PI / 180))
                    + (0.496 - 0.5) * (1 / 1) * - cos (0 * (PI / 180)))
                   / Rmax 0.01 (0.5 / 100))
  /\ linearDivisor (linearMask 0.5) = Rmax 0.01 (0.5 / 100)
  /\ (0.1 < 0.5 < 1 -> linearDivisor (linearMask 0.5) = 0.01).
Proof.
  split; [reflexivity |].
  apply (maskAlphaPre_linear 0.5 0.496 1 1 (linearMask 0.5) None).
  reflexivity.
Defined.

Lemma maskAlphaPre_range (u v width height : R) (mask : Mask.t)
  (hsl : option Hsl.t) :
  0 <= maskAlphaPre u v width height mask hsl <= 1.
Proof.
  unfold maskAlphaPre. destruct (Mask.type mask).
  - destruct (Mask.targetColor mask) as [target |]; [| lra].
    destruct hsl as [hsl |]; [| lra].
    set (diff := Rmin _ _). set (range := Mask.colorRange mask / 100).
    set (satDiff := Rabs _).
    assert (Ha : 0 <= (if Rlt_dec diff range then 1
                       else if Rlt_dec diff (range + 0.1)
                            then 1 - (diff - range) / 0.1 else 0) <= 1).
    { destruct (Rlt_dec diff range); [lra |].
      destruct (Rlt_dec diff (range + 0.1)); lra. }
    set (alpha := if Rlt_dec diff range then _ else _) in *.
    destruct (Rgt_dec (Hsl.s target) 0.1); [| exact Ha].
    destruct (Rgt_dec satDiff 0.3); [| exact Ha].
    assert (Hm : 0 <= Rmax 0 (1 - (satDiff - 0.3) * 5) <= 1).
    { unfold Rmax. destruct (Rle_dec 0 (1 - (satDiff - 0.3) * 5)); lra. }
    nra.
  - apply clamp01_range.
Qed.

(** C8.  For every mask whose opacity is in [0, 100] (whatever its feather
    and colour range), every [(u, v)], every image size and every optional
    sample colour: the alpha before invert is in [0, 1]; the result is that
    alpha, replaced by [1 - alpha] when [invert] is set, times
    [opacity / 100]; and the result is in [0, 1]. *)
Theorem calculateMaskAlpha_range (u v width height : R) (mask : Mask.t)
  (hsl : option Hsl.t) :
  0 <= Mask.opacity mask <= 100 ->
  let pre := maskAlphaPre u v width height mask hsl in
  0 <= pre <= 1
  /\ calculateMaskAlpha u v width height mask hsl
     = (if Mask.invert mask then 1 - pre else pre) * (Mask.opacity mask / 100)
  /\ 0 <= calculateMaskAlpha u v width height mask hsl <= 1.
Proof.
  intros Ho pre.
  pose proof (maskAlphaPre_range u v width height mask hsl) as Hp.
  fold pre in Hp. split; [exact Hp |]. split; [reflexivity |].
  unfold calculateMaskAlpha. fold pre.
  destruct (Mask.invert mask); nra.
Qed.

Lemma calculateMaskAlpha_range_witness :
  0 <= Mask.opacity (linearMask 20) <= 100 /\
  (let pre := maskAlphaPre 0.5 0.2 4 3 (linearMask 20) None in
   0 <= pre <= 1
   /\ calculateMaskAlpha 0.5 0.2 4 3 (linearMask 20) None
      = (if Mask.invert (linearMask 20) then 1 - pre else pre)
        * (Mask.opacity (linearMask 20) / 100)
   /\ 0 <= calculateMaskAlpha 0.5 0.2 4 3 (linearMask 20) None <= 1).
Proof.
  split; [simpl; lra |].
  apply (calculateMaskAlpha_range 0.5 0.2 4 3 (linearMask 20) None).
  simpl; lra.
Defined.

(** ** FrameCompositor: the coordinate remap *)

(** C4.  The mask coordinate of a pixel is [(x / width, y / height)], then
    mirrored, then cropped; and with [isMirrored] set and the crop
    [{x: 0.25, y: 0, width: 0.5, height: 1}] the local coordinate (0, 0) is
    mapped to (0.75, 0). *)
Theorem maskUV_mirror_then_crop (settings : EditSettings.t) :
  (forall width height i : nat,
     maskUV settings width height i
     = cropSpec (EditSettings.crop settings)
         (mirrorSpec (EditSettings.isMirrored settings)
            (INR ((i / 4) mod width) / INR width,
             INR ((i / 4) / width) / INR height)))
  /\ (EditSettings.isMirrored settings = true ->
      EditSettings.crop settings = Some (Crop.mk 0.25 0 0.5 1) ->
      remapUV settings (0, 0) = (0.75, 0)).
Proof.
  split.
  - intros width height i. unfold maskUV, localUV, remapUV, cropSpec, mirrorSpec.
    destruct (EditSettings.isMirrored settings),
      (EditSettings.crop settings); reflexivity.
  - intros Hm Hc. unfold remapUV. rewrite Hm, Hc. simpl.
    f_equal; lra.
Qed.

Lemma maskUV_mirror_then_crop_witness :
  EditSettings.isMirrored mirroredCroppedSettings = true
  /\ EditSettings.crop mirroredCroppedSettings = Some (Crop.mk 0.25 0 0.5 1)
  /\ remapUV mirroredCroppedSettings (0, 0) = (0.75, 0).
Proof.
  split; [reflexivity |]. split; [reflexivity |].
  apply (proj2 (maskUV_mirror_then_crop mirroredCroppedSettings));
    reflexivity.
Defined.

(** ** Buffers *)

Lemma store_length (a : list Z) (i : nat) (v : Z) :
  length (store a i v) = length a.
Proof.
  revert i. induction a as [| x a IH]; intros [| i]; simpl; auto.
Qed.

Lemma nth_store (a : list Z) (i j : nat) (v : Z) :
  nth j (store a i v) 0%Z
  = if Nat.eqb i j && Nat.ltb j (length a) then v else nth j a 0%Z.
Proof.
  revert i j. induction a as [| x a IH]; intros i j.
  - simpl. rewrite andb_false_r. reflexivity.
  - destruct i as [| i], j as [| j]; simpl; try reflexivity.
    rewrite IH. reflexivity.
Qed.

Lemma nth_store_other (a : list Z) (i j : nat) (v : Z) :
  i <> j -> nth j (store a i v) 0%Z = nth j a 0%Z.
Proof.
  intros H. rewrite nth_store.
  destruct (Nat.eqb_spec i j); [contradiction | reflexivity].
Qed.

Lemma ToUint8Clamp_isByte (c : option R) : isByte (ToUint8Clamp c).
Proof.
  unfold isByte, ToUint8Clamp. destruct c as [x |]; [| lia].
  destruct (Rle_dec x 0); [lia |]. destruct (Rle_dec 255 x); [lia |].
  destruct (base_Int_part x) as [Hlo Hhi].
  assert (H0 : IZR (-1) < IZR (Int_part x)) by (simpl; lra).
  assert (H1 : IZR (Int_part x) < IZR 255) by lra.
  apply lt_IZR in H0. apply lt_IZR in H1.
  destruct (Rlt_dec (IZR (Int_part x) + 0.5) x); [lia |].
  destruct (Rlt_dec x (IZR (Int_part x) + 0.5)); [lia |].
  destruct (Z.even (Int_part x)); lia.
Qed.

Lemma fold_left_invariant {A B : Type} (P : A -> Prop) (f : A -> B -> A)
  (l : list B) (a : A) :
  P a -> (forall a b, In b l -> P a -> P (f a b)) -> P (fold_left f l a).
Proof.
  revert a. induction l as [| b l IH]; intros a Ha Hf; simpl; [exact Ha |].
  apply IH.
  - apply Hf; [left; reflexivity | exact Ha].
  - intros a' b' Hb. apply Hf. right. exact Hb.
Qed.

Lemma store_sameAlpha (a b : list Z) (i : nat) (v : Z) :
  ~ isAlphaIndex i -> sameAlpha a b -> sameAlpha a (store b i v).
Proof.
  intros Hi [Hl Ha]. split; [rewrite store_length; exact Hl |].
  intros j Hj. rewrite nth_store_other; [apply Ha; exact Hj |].
  intros ->. contradiction.
Qed.

Lemma store_rgbBytes (b : list Z) (i : nat) (v : Z) :
  isByte v -> rgbBytes b -> rgbBytes (store b i v).
Proof.
  intros Hv Hb j Hj Hna. rewrite store_length in Hj. rewrite nth_store.
  destruct (Nat.eqb i j && Nat.ltb j (length b)); [exact Hv | auto].
Qed.

Lemma pixelOffsets_aligned (len i : nat) :
  In i (pixelOffsets len) -> (i mod 4 = 0)%nat.
Proof.
  unfold pixelOffsets. intros H. apply in_map_iff in H.
  destruct H as (k & <- & _). rewrite Nat.mul_comm. apply Nat.Div0.mod_mul.
Qed.

Lemma pixelStep_sameAlpha (settings : EditSettings.t)
  (activeLut : option Lut.t) (width height : nat) (data a output : list Z)
  (i : nat) :
  (i mod 4 = 0)%nat -> sameAlpha a output ->
  sameAlpha a (pixelStep settings activeLut width height data output i).
Proof.
  intros Hi H. unfold pixelStep.
  destruct (processPixel settings activeLut width height data i) as [[r g] b].
  divmod4 i. divmod4 (i + 1)%nat. divmod4 (i + 2)%nat.
  repeat apply store_sameAlpha; try exact H; unfold isAlphaIndex; lia.
Qed.

Lemma pixelLoop_sameAlpha (settings : EditSettings.t)
  (activeLut : option Lut.t) (width height : nat) (data : list Z) :
  sameAlpha data (pixelLoop settings activeLut width height data).
Proof.
  unfold pixelLoop.
  apply (fold_left_invariant (fun out => sameAlpha data out)).
  - split; reflexivity.
  - intros out i Hi H. apply pixelStep_sameAlpha; [| exact H].
    apply (pixelOffsets_aligned _ _ Hi).
Qed.

(** After the iterations for the first [n] pixels, the RGB bytes of those
    pixels are the stored bytes. *)
Lemma pixelLoop_prefix_bytes (settings : EditSettings.t)
  (activeLut : option Lut.t) (width height : nat) (data : list Z) (n : nat) :
  length (fold_left (pixelStep settings activeLut width height data)
            (map (fun k => (4 * k)%nat) (seq 0 n)) data) = length data
  /\ forall j, (j < length data)%nat -> ~ isAlphaIndex j -> (j / 4 < n)%nat ->
       isByte (nth j (fold_left (pixelStep settings activeLut width height data)
                        (map (fun k => (4 * k)%nat) (seq 0 n)) data) 0%Z).
Proof.
  induction n as [| n IH].
  - split; [reflexivity |]. intros j _ _ H. lia.
  - rewrite seq_S, map_app, fold_left_app.
    destruct IH as [Hl Hb].
    set (out := fold_left _ (map _ (seq 0 n)) data) in *.
    cbn [map fold_left Nat.add]. unfold pixelStep.
    destruct (processPixel settings activeLut width height data (4 * n))
      as [[r g] b].
    split; [rewrite !store_length; exact Hl |].
    intros j Hj Hna Hn. rewrite !nth_store, !store_length, Hl.
    pose proof (ToUint8Clamp_isByte r). pose proof (ToUint8Clamp_isByte g).
    pose proof (ToUint8Clamp_isByte b).
    destruct (Nat.eqb_spec (4 * n + 2) j); cbn [andb];
      [destruct (Nat.ltb_spec j (length data)); [assumption | lia] |].
    destruct (Nat.eqb_spec (4 * n + 1) j); cbn [andb];
      [destruct (Nat.ltb_spec j (length data)); [assumption | lia] |].
    destruct (Nat.eqb_spec (4 * n) j); cbn [andb];
      [destruct (Nat.ltb_spec j (length data)); [assumption | lia] |].
    apply Hb; try assumption.
    unfold isAlphaIndex in Hna. divmod4 j. lia.
Qed.

Lemma pixelLoop_rgbBytes (settings : EditSettings.t)
  (activeLut : option Lut.t) (width height : nat) (data : list Z) :
  rgbBytes (pixelLoop settings activeLut width height data).
Proof.
  destruct (pixelLoop_prefix_bytes settings activeLut width height data
              ((length data + 3) / 4)) as [Hl Hb].
  intros j Hj Hna. unfold pixelLoop, pixelOffsets in *.
  rewrite Hl in Hj. apply Hb; try assumption.
  divmod4 j. divmod4 (length data + 3)%nat. lia.
Qed.

Lemma texturePass_frame (settings : EditSettings.t) (width height : nat)
  (a output : list Z) :
  sameAlpha a output /\ rgbBytes output ->
  sameAlpha a (texturePass settings width height output)
  /\ rgbBytes (texturePass settings width height output).
Proof.
  intros H. unfold texturePass.
  destruct (Req_EM_T (EditSettings.texture settings) 0); [exact H |].
  set (textureData := output) at 1 3.
  apply (fold_left_invariant (fun out => sameAlpha a out /\ rgbBytes out));
    [exact H |].
  intros out y _ Hy. unfold textureRow.
  apply (fold_left_invariant (fun out => sameAlpha a out /\ rgbBytes out));
    [exact Hy |].
  intros out' x _ Hx. unfold textureChannels.
  apply (fold_left_invariant (fun out => sameAlpha a out /\ rgbBytes out));
    [exact Hx |].
  intros out'' c Hc [Hs Hr]. split.
  - apply store_sameAlpha; [| exact Hs].
    unfold isAlphaIndex. set (m := (y * width + x)%nat).
    divmod4 (m * 4 + c)%nat.
    destruct Hc as [<- | [<- | [<- | []]]]; lia.
  - apply store_rgbBytes; [| exact Hr].
    unfold textureValue. apply ToUint8Clamp_isByte.
Qed.

(** C9.  [processImage] returns an image of the same width and height whose
    buffer has the length of the input buffer, in which every alpha byte is
    the input's alpha byte and every RGB position holds a value in
    [0 .. 255]. *)
Theorem processImage_frame (imageData : ImageData.t)
  (settings : EditSettings.t) (activeLut : option Lut.t) :
  let result := processImage imageData settings activeLut in
  ImageData.width result = ImageData.width imageData
  /\ ImageData.height result = ImageData.height imageData
  /\ length (ImageData.data result) = length (ImageData.data imageData)
  /\ (forall j, isAlphaIndex j ->
        nth j (ImageData.data result) 0%Z
        = nth j (ImageData.data imageData) 0%Z)
  /\ (forall j, (j < length (ImageData.data imageData))%nat ->
        ~ isAlphaIndex j -> isByte (nth j (ImageData.data result) 0%Z)).
Proof.
  unfold processImage; simpl.
  destruct (texturePass_frame settings (ImageData.width imageData)
              (ImageData.height imageData) (ImageData.data imageData)
              (pixelLoop settings activeLut (ImageData.width imageData)
                 (ImageData.height imageData) (ImageData.data imageData)))
    as [[Hl Ha] Hb].
  { split; [apply pixelLoop_sameAlpha | apply pixelLoop_rgbBytes]. }
  split; [reflexivity |]. split; [reflexivity |]. split; [exact Hl |].
  split; [exact Ha |].
  intros j Hj Hna. apply Hb; [rewrite Hl |]; assumption.
Qed.

Lemma processImage_frame_witness :
  nth 3 (ImageData.data (processImage (onePixel 10 20 30 40)
                           DEFAULT_SETTINGS None)) 0%Z = 40%Z
  /\ isByte (nth 0 (ImageData.data (processImage (onePixel 10 20 30 40)
                                      DEFAULT_SETTINGS None)) 0%Z).
Proof.
  destruct (processImage_frame (onePixel 10 20 30 40) DEFAULT_SETTINGS None)
    as (_ & _ & _ & Ha & Hb).
  split.
  - apply (Ha 3%nat). reflexivity.
  - apply (Hb 0%nat); [simpl; lia | unfold isAlphaIndex; simpl; discriminate].
Defined.

(** ** LutSampler *)

Lemma Math_round_nonneg (x : R) : 0 <= x -> (0 <= Math_round x)%Z.
Proof.
  intros Hx. unfold Math_round.
  destruct (base_Int_part (x + 1 / 2)) as [_ Hb].
  assert (H : IZR (-1) < IZR (Int_part (x + 1 / 2))) by (simpl; lra).
  apply lt_IZR in H. lia.
Qed.

Lemma Math_round_minus_one : Math_round (-1) = (-1)%Z.
Proof.
  unfold Math_round. symmetry. apply Int_part_spec. simpl. lra.
Qed.

Lemma lutIndex_nonneg (lutSize : Z) (rgb : R * R * R) :
  (1 <= lutSize)%Z -> (0 <= lutIndex lutSize rgb)%Z.
Proof.
  intros Hs. destruct rgb as [[r g] b]. unfold lutIndex.
  assert (Hm : 0 <= IZR (lutSize - 1)) by (apply IZR_le; lia).
  assert (Hc : forall c, 0 <= clamp c / 255 * IZR (lutSize - 1)).
  { intros c. pose proof (clamp_range c).
    apply Rmult_le_pos; [lra | exact Hm]. }
  pose proof (Math_round_nonneg _ (Hc r)).
  pose proof (Math_round_nonneg _ (Hc g)).
  pose proof (Math_round_nonneg _ (Hc b)).
  nia.
Qed.

Lemma typedGet_inside (data : list R) (idx : Z) :
  (0 <= idx < Z.of_nat (length data))%Z -> exists x, typedGet data idx = Some x.
Proof.
  intros H. unfold typedGet.
  destruct (idx <? 0)%Z eqn:E; [apply Z.ltb_lt in E; lia |].
  destruct (nth_error data (Z.to_nat idx)) as [x |] eqn:N; [eauto |].
  apply nth_error_None in N. lia.
Qed.

(** For a LUT whose size is at least 1 the guard is enough: every index
    read lies inside [data], no channel becomes NaN, and a pixel whose index
    fails the guard leaves the stage unchanged. *)
Theorem lutStage_safe_of_positive_size (settings : EditSettings.t)
  (lut : Lut.t) (rgb : R * R * R) :
  (1 <= Lut.size lut)%Z ->
  Forall (fun i => (0 <= i < Z.of_nat (length (Lut.data lut)))%Z)
    (lutReads settings (Some lut) rgb)
  /\ (exists r g b, lutStage settings (Some lut) rgb = (Some r, Some g, Some b))
  /\ (lutGuard lut (lutIndex (Lut.size lut) rgb) = false ->
      lutStage settings (Some lut) rgb
      = (Some (fst (fst rgb)), Some (snd (fst rgb)), Some (snd rgb))).
Proof.
  intros Hs. pose proof (lutIndex_nonneg _ rgb Hs) as Hi.
  unfold lutReads, lutStage. destruct rgb as [[r g] b].
  set (idx := lutIndex (Lut.size lut) (r, g, b)) in *.
  destruct (Rgt_dec (EditSettings.lutIntensity settings) 0).
  - destruct (lutGuard lut idx) eqn:G.
    + unfold lutGuard in G. apply Z.ltb_lt in G.
      split; [repeat constructor; lia |]. split; [| discriminate].
      destruct (typedGet_inside (Lut.data lut) idx) as [x0 ->]; [lia |].
      destruct (typedGet_inside (Lut.data lut) (idx + 1)) as [x1 ->]; [lia |].
      destruct (typedGet_inside (Lut.data lut) (idx + 2)) as [x2 ->]; [lia |].
      simpl. eauto.
    + split; [constructor |]. split; [eauto | reflexivity].
  - split; [constructor |]. split; [eauto |].
    destruct (lutGuard lut idx); reflexivity.
Qed.


Lemma lutIndex_size_zero_white :
  lutIndex (Lut.size sizeZeroLut) (255, 255, 255) = (-3)%Z.
Proof.
  unfold lutIndex; simpl. rewrite clamp_inside by lra.
  replace (255 / 255 * -1) with (-1) by field.
  rewrite Math_round_minus_one. reflexivity.
Qed.

(** C5.  For the LUT of size 0 carrying one triple, full intensity and a
    white pixel, the flat index is -3, the guard [idx < data.length - 2]
    lets it through, the three reads fall outside the array, every channel
    leaves the stage as NaN instead of unchanged, and [processImage] writes
    the pixel as black. *)
Theorem lutStage_size_zero_reads_outside :
  lutIndex (Lut.size sizeZeroLut) (255, 255, 255) = (-3)%Z
  /\ lutReads DEFAULT_SETTINGS (Some sizeZeroLut) (255, 255, 255)
     = [-3; -2; -1]%Z
  /\ lutStage DEFAULT_SETTINGS (Some sizeZeroLut) (255, 255, 255)
     = (None, None, None)
  /\ ImageData.data
       (processImage (onePixel 255 255 255 255)
          DEFAULT_SETTINGS (Some sizeZeroLut))
     = [0; 0; 0; 255]%Z.
Proof.
  pose proof lutIndex_size_zero_white as I.
  assert (Rd : lutReads DEFAULT_SETTINGS (Some sizeZeroLut) (255, 255, 255)
               = [-3; -2; -1]%Z).
  { unfold lutReads. rewrite I. unfold DEFAULT_SETTINGS; simpl.
    destruct (Rgt_dec 100 0) as [_ | F]; [reflexivity | lra]. }
  assert (St : lutStage DEFAULT_SETTINGS (Some sizeZeroLut) (255, 255, 255)
               = (None, None, None)).
  { unfold lutStage. rewrite I. unfold DEFAULT_SETTINGS; simpl.
    destruct (Rgt_dec 100 0) as [_ | F]; [reflexivity | lra]. }
  split; [exact I |]. split; [exact Rd |]. split; [exact St |].
  unfold processImage, texturePass, pixelLoop, onePixel.
  cbn [ImageData.data ImageData.width ImageData.height].
  change (EditSettings.texture DEFAULT_SETTINGS) with 0.
  destruct (Req_EM_T 0 0) as [_ | F]; [| lra].
  change (pixelOffsets (length [255; 255; 255; 255]%Z)) with [0%nat].
  cbn [fold_left]. unfold pixelStep, processPixel, byteAt.
  cbn [nth Nat.add].
  change (globalLocalSettings DEFAULT_SETTINGS)
    with (LocalSettings.mk 0 0 0 0 0 0 0 0 0).
  rewrite applyAdjustments_zero.
  rewrite mixerStage_zero_mixer by reflexivity.
  unfold maskStage. cbn [EditSettings.masks DEFAULT_SETTINGS].
  rewrite St. reflexivity.
Qed.

(** * Further properties *)

(** ** ColorSpace: ranges *)

(** X1.  For channels in [0 .. 255], [rgbToHsl] returns a hue in [0, 1) and
    a saturation and a lightness in [0, 1]. *)
Theorem rgbToHsl_range (r g b : R) :
  0 <= r <= 255 -> 0 <= g <= 255 -> 0 <= b <= 255 ->
  let '(h, s, l) := rgbToHsl r g b in
  0 <= h < 1 /\ 0 <= s <= 1 /\ 0 <= l <= 1.
Proof.
  intros Hr Hg Hb. unfold rgbToHsl. cbv zeta.
  assert (Hx : 0 <= r / 255 <= 1) by lra.
  assert (Hy : 0 <= g / 255 <= 1) by lra.
  assert (Hz : 0 <= b / 255 <= 1) by lra.
  set (x := r / 255) in *. set (y := g / 255) in *. set (z := b / 255) in *.
  destruct (max3_spec x y z) as (Mx & My & Mz & Mc).
  destruct (min3_spec x y z) as (mx & my & mz & mc).
  set (M := Rmax (Rmax x y) z) in *. set (m := Rmin (Rmin x y) z) in *.
  destruct (Req_EM_T M m) as [E | NE]; [lra |].
  assert (Hd : 0 < M - m) by lra.
  split; [| split; [| lra]].
  - destruct (Req_EM_T M x) as [Ex | Nx].
    + destruct (Rlt_dec y z).
      * destruct (quotient_bounds (y - z) (M - m) (-1) 0 Hd) as [Hk Ek];
          [lra |].
        assert ((y - z) / (M - m) < 0) by nra. lra.
      * destruct (quotient_bounds (y - z) (M - m) 0 1 Hd) as [Hk Ek]; lra.
    + destruct (Req_EM_T M y) as [Ey | Ny].
      * destruct (quotient_bounds (z - x) (M - m) (-1) 1 Hd) as [Hk Ek]; lra.
      * destruct (Req_EM_T M z) as [Ez | Nz]; [| lra].
        destruct (quotient_bounds (x - y) (M - m) (-1) 1 Hd) as [Hk Ek]; lra.
  - destruct (Rgt_dec ((M + m) / 2) 0.5).
    + destruct (quotient_bounds (M - m) (2 - M - m) 0 1) as [Hk _]; lra.
    + destruct (quotient_bounds (M - m) (M + m) 0 1) as [Hk _]; lra.
Qed.

Lemma rgbToHsl_range_witness :
  let '(h, s, l) := rgbToHsl 200 100 50 in
  0 <= h < 1 /\ 0 <= s <= 1 /\ 0 <= l <= 1.
Proof. apply (rgbToHsl_range 200 100 50); lra. Defined.

Lemma hue2rgb_between (p q t : R) :
  p <= q -> -1 <= t <= 2 -> p <= hue2rgb p q t <= q.
Proof.
  intros Hpq Ht. unfold hue2rgb. rdecide; nra.
Qed.

(** X2.  For a hue, a saturation and a lightness in [0, 1], [hslToRgb]
    returns three channels in [0 .. 255]. *)
Theorem hslToRgb_range (h s l : R) :
  0 <= h <= 1 -> 0 <= s <= 1 -> 0 <= l <= 1 ->
  let '(r, g, b) := hslToRgb h s l in
  0 <= r <= 255 /\ 0 <= g <= 255 /\ 0 <= b <= 255.
Proof.
  intros Hh Hs Hl. unfold hslToRgb.
  destruct (Req_EM_T s 0); [lra |].
  set (q := if Rlt_dec l 0.5 then l * (1 + s) else l + s - l * s).
  assert (Hq : l <= q <= 1 /\ 0 <= 2 * l - q).
  { unfold q. destruct (Rlt_dec l 0.5); nra. }
  destruct Hq as [Hq Hp].
  assert (Hpq : 2 * l - q <= q) by lra.
  pose proof (hue2rgb_between _ _ (h + 1 / 3) Hpq).
  pose proof (hue2rgb_between _ _ h Hpq).
  pose proof (hue2rgb_between _ _ (h - 1 / 3) Hpq).
  repeat split; lra.
Qed.

Lemma hslToRgb_range_witness :
  let '(r, g, b) := hslToRgb (1 / 2) (1 / 2) (1 / 2) in
  0 <= r <= 255 /\ 0 <= g <= 255 /\ 0 <= b <= 255.
Proof. apply (hslToRgb_range (1 / 2) (1 / 2) (1 / 2)); lra. Defined.

(** ** ColorMixer: the hues no band reaches *)

Lemma getWeight_outside (hDeg center width : R) :
  0 < width -> width <= Rabs (hDeg - center) <= 360 - width ->
  getWeight hDeg center width = 0.
Proof.
  intros Hw Hd. unfold getWeight.
  set (diff := Rabs (hDeg - center)) in *.
  assert (Hi : 0 < / width) by (apply Rinv_0_lt_compat; exact Hw).
  assert (Hq : forall e, width <= e -> 1 <= e / width).
  { intros e He. unfold Rdiv. apply Rmult_le_reg_r with width; [lra |].
    rewrite Rmult_assoc, Rinv_l by lra. lra. }
  destruct (Rgt_dec diff 180).
  - pose proof (Hq (360 - diff)). rewrite Rmax_left; lra.
  - pose proof (Hq diff). rewrite Rmax_left; lra.
Qed.

Lemma getMixerAdjustment_gap (hue : R) (mixer : ColorMixer.t) :
  95 <= hue * 360 <= 130 ->
  getMixerAdjustment hue (Some mixer) = Hsl.mk 0 0 0.
Proof.
  intros Hh. unfold getMixerAdjustment. cbv zeta.
  rewrite !getWeight_outside;
    try lra; try (unfold Rabs; rdecide).
  unfold addBand. rdecide. reflexivity.
Qed.

(** X3.  No band of the colour mixer reaches the hues between 95 and 130
    degrees: for such a hue the adjustment is zero for every mixer, and a
    pixel with such a hue leaves stage 2 unchanged. *)
Theorem mixerStage_green_gap (settings : EditSettings.t) (r g b : R) :
  95 <= fst (fst (rgbToHsl (clamp r) (clamp g) (clamp b))) * 360 <= 130 ->
  getMixerAdjustment (fst (fst (rgbToHsl (clamp r) (clamp g) (clamp b))))
    (Some (EditSettings.colorMixer settings)) = Hsl.mk 0 0 0
  /\ mixerStage settings (r, g, b) = (r, g, b).
Proof.
  intros Hh.
  pose proof (getMixerAdjustment_gap _ (EditSettings.colorMixer settings) Hh)
    as Hz.
  split; [exact Hz |].
  unfold mixerStage, mixerCall.
  destruct (rgbToHsl (clamp r) (clamp g) (clamp b)) as [[h s] l].
  cbn [fst] in Hz. rewrite Hz. cbn [Hsl.h Hsl.s Hsl.l].
  unfold nonzero. destruct (Req_EM_T 0 0) as [_ | F]; [reflexivity | lra].
Qed.

Lemma rgbToHsl_green : rgbToHsl 0 255 0 = (1 / 3, 1, 1 / 2).
Proof. unfold rgbToHsl, Rmax, Rmin. rdecide. triple lra. Qed.

Lemma mixerStage_green_gap_witness :
  mixerStage (settingsWithMixer (blueOnly 50 150)) (0, 255, 0) = (0, 255, 0).
Proof.
  apply (mixerStage_green_gap (settingsWithMixer (blueOnly 50 150)) 0 255 0).
  rewrite !clamp_inside by lra. rewrite rgbToHsl_green. simpl. lra.
Defined.

(** ** ToneEngine *)

(** X4.  With saturation -100 the three channels returned by
    [applyAdjustments] are equal, whatever the other eight settings. *)
Theorem applyAdjustments_desaturate (r g b : R) (settings : LocalSettings.t) :
  LocalSettings.saturation settings = -100 ->
  let '(r', g', b') := applyAdjustments r g b settings in
  r' = g' /\ g' = b'.
Proof.
  intros Hs. unfold applyAdjustments. cbv zeta. rewrite Hs.
  replace (1 + -100 / 100) with 0 by lra.
  destruct (Req_EM_T (LocalSettings.shadows settings) 0);
    destruct (Req_EM_T (LocalSettings.highlights settings) 0);
    destruct (Req_EM_T (LocalSettings.clarity settings) 0);
    cbv beta iota; split; ring.
Qed.

Lemma applyAdjustments_desaturate_witness :
  let '(r', g', b') :=
    applyAdjustments 200 100 50 (LocalSettings.mk 10 20 0 0 0 0 (-100) 5 5) in
  r' = g' /\ g' = b'.
Proof.
  apply (applyAdjustments_desaturate 200 100 50
           (LocalSettings.mk 10 20 0 0 0 0 (-100) 5 5)).
  reflexivity.
Defined.

(** X5.  Without white balance (temperature and tint zero) a neutral input
    [r = g = b] gives a neutral output, whatever the other settings. *)
Theorem applyAdjustments_neutral (x : R) (settings : LocalSettings.t) :
  LocalSettings.temperature settings = 0 ->
  LocalSettings.tint settings = 0 ->
  let '(r', g', b') := applyAdjustments x x x settings in
  r' = g' /\ g' = b'.
Proof.
  intros Ht Hi. unfold applyAdjustments. cbv zeta. rewrite Ht, Hi.
  replace (1 + 0 / 100 + 0 / 100) with 1 by lra.
  replace (1 - 0 / 200) with 1 by lra.
  replace (1 - 0 / 100) with 1 by lra.
  destruct (Req_EM_T (LocalSettings.shadows settings) 0);
    destruct (Req_EM_T (LocalSettings.highlights settings) 0);
    destruct (Req_EM_T (LocalSettings.clarity settings) 0);
    cbv beta iota; split; reflexivity.
Qed.

Lemma applyAdjustments_neutral_witness :
  let '(r', g', b') :=
    applyAdjustments 128 128 128 (LocalSettings.mk 10 20 30 40 0 50 60 0 0) in
  r' = g' /\ g' = b'.
Proof.
  apply (applyAdjustments_neutral 128 (LocalSettings.mk 10 20 30 40 0 50 60 0 0));
    reflexivity.
Defined.

Lemma applyAdjustments_exposure_only (r g b e : R) :
  applyAdjustments r g b (LocalSettings.mk e 0 0 0 0 0 0 0 0)
  = (r * Rpower 2 (e / 50), g * Rpower 2 (e / 50), b * Rpower 2 (e / 50)).
Proof.
  unfold applyAdjustments; simpl.
  destruct (Req_EM_T 0 0) as [_ | H]; [| contradiction H; reflexivity].
  triple field.
Qed.

(** X6.  Exposure alone scales the channels by [2 ^ (exposure / 50)]:
    applying exposure [e1] and then [e2] is applying [e1 + e2], and
    exposure 50 doubles every channel. *)
Theorem applyAdjustments_exposure_compose (r g b e1 e2 : R) :
  (let '(r1, g1, b1) :=
     applyAdjustments r g b (LocalSettings.mk e1 0 0 0 0 0 0 0 0) in
   applyAdjustments r1 g1 b1 (LocalSettings.mk e2 0 0 0 0 0 0 0 0))
  = applyAdjustments r g b (LocalSettings.mk (e1 + e2) 0 0 0 0 0 0 0 0)
  /\ applyAdjustments r g b (LocalSettings.mk 50 0 0 0 0 0 0 0 0)
     = (2 * r, 2 * g, 2 * b).
Proof.
  split.
  - rewrite !applyAdjustments_exposure_only.
    replace ((e1 + e2) / 50) with (e1 / 50 + e2 / 50) by field.
    rewrite Rpower_plus. triple ring.
  - rewrite applyAdjustments_exposure_only.
    replace (50 / 50) with 1 by field. rewrite Rpower_1 by lra.
    triple ring.
Qed.

(** X7.  Saturation alone keeps the luma
    [0.299 r + 0.587 g + 0.114 b] of the pixel. *)
Theorem applyAdjustments_saturation_keeps_luma (r g b s : R) :
  let '(r', g', b') :=
    applyAdjustments r g b (LocalSettings.mk 0 0 0 0 0 0 s 0 0) in
  0.299 * r' + 0.587 * g' + 0.114 * b' = 0.299 * r + 0.587 * g + 0.114 * b.
Proof.
  unfold applyAdjustments; simpl.
  destruct (Req_EM_T 0 0) as [_ | H]; [| contradiction H; reflexivity].
  replace (0 / 50) with 0 by lra. rewrite Rpower_O by lra.
  cbv beta iota zeta. nra.
Qed.

(** ** MaskEngine: further properties *)

Lemma linearDivisor_pos (mask : Mask.t) : 0.01 <= linearDivisor mask.
Proof. rewrite linearDivisor_floor. apply Rmax_l. Qed.


Lemma clamp01_mono (a b : R) : a <= b -> clamp01 a <= clamp01 b.
Proof. intros H. unfold clamp01, Rmax, Rmin. rdecide. Qed.

(** X8.  Setting [invert] on a mask replaces its alpha by
    [opacity / 100] minus that alpha. *)
Theorem calculateMaskAlpha_invert (u v width height : R) (ty : MaskType)
  (target : option Hsl.t) (range x y feather : R) (rotation : option R)
  (opacity : R) (local : LocalSettings.t) (hsl : option Hsl.t) :
  calculateMaskAlpha u v width height
    (Mask.mk ty target range x y feather rotation true opacity local) hsl
  = opacity / 100
    - calculateMaskAlpha u v width height
        (Mask.mk ty target range x y feather rotation false opacity local) hsl.
Proof.
  unfold calculateMaskAlpha.
  cbn [Mask.invert Mask.opacity].
  replace (maskAlphaPre u v width height
             (Mask.mk ty target range x y feather rotation true opacity local)
             hsl)
    with (maskAlphaPre u v width height
            (Mask.mk ty target range x y feather rotation false opacity local)
            hsl) by reflexivity.
  field.
Qed.

(** X9.  A linear mask is 1 where the signed distance is at most [-f / 2],
    0 where it is at least [f / 2], [0.5 - dist / f] strictly between 0 and
    1 in between, and 0.5 at the mask centre ([f] is the divisor of the
    ramp). *)
Theorem maskAlphaPre_linear_zones (u v width height : R) (mask : Mask.t)
  (hsl : option Hsl.t) :
  Mask.type mask = linear ->
  let dist := linearDist u v width height mask in
  let f := linearDivisor mask in
  (dist <= - f / 2 -> maskAlphaPre u v width height mask hsl = 1)
  /\ (f / 2 <= dist -> maskAlphaPre u v width height mask hsl = 0)
  /\ (- f / 2 < dist < f / 2 ->
      maskAlphaPre u v width height mask hsl = 0.5 - dist / f
      /\ 0 < maskAlphaPre u v width height mask hsl < 1)
  /\ maskAlphaPre (Mask.x mask) (Mask.y mask) width height mask hsl = 0.5.
Proof.
  intros Ht dist f. pose proof (linearDivisor_pos mask) as Hf. fold f in Hf.
  assert (Hi : 0 < / f) by (apply Rinv_0_lt_compat; lra).
  assert (Hq : dist / f * f = dist) by (field; lra).
  unfold maskAlphaPre. rewrite Ht. fold dist f.
  repeat split.
  - intros Hd. assert (dist / f <= - (1 / 2)) by nra.
    unfold Rmax, Rmin. rdecide.
  - intros Hd. assert (1 / 2 <= dist / f) by nra.
    unfold Rmax, Rmin. rdecide.
  - assert (- (1 / 2) < dist / f < 1 / 2) by (split; nra).
    unfold Rmax, Rmin. rdecide.
  - assert (- (1 / 2) < dist / f < 1 / 2) by (split; nra).
    unfold Rmax, Rmin. rdecide.
  - assert (- (1 / 2) < dist / f < 1 / 2) by (split; nra).
    unfold Rmax, Rmin. rdecide.
  - assert (E : linearDist (Mask.x mask) (Mask.y mask) width height mask = 0)
      by (unfold linearDist; cbv zeta; ring).
    rewrite E. replace (0 / f) with 0 by (unfold Rdiv; ring).
    unfold Rmax, Rmin. rdecide.
Qed.

Lemma maskAlphaPre_linear_zones_witness :
  maskAlphaPre 0.5 0.5 4 3 (linearMask 20) None = 0.5.
Proof.
  apply (maskAlphaPre_linear_zones 0.5 0.5 4 3 (linearMask 20) None).
  reflexivity.
Defined.


(** X11.  Without rotation (absent or 0) the alpha of a linear mask does
    not depend on [u] and does not decrease with [v]: the mask covers the
    part of the image below its centre line. *)
Theorem maskAlphaPre_linear_unrotated_monotone (u1 u2 v1 v2 width height : R)
  (mask : Mask.t) (hsl : option Hsl.t) :
  Mask.type mask = linear ->
  Mask.rotation mask = None \/ Mask.rotation mask = Some 0 ->
  0 < width -> 0 < height -> v1 <= v2 ->
  maskAlphaPre u1 v1 width height mask hsl
  <= maskAlphaPre u2 v2 width height mask hsl.
Proof.
  intros Ht Hr Hw Hh Hv.
  pose proof (linearDivisor_pos mask) as Hf.
  assert (Hi : 0 < / linearDivisor mask) by (apply Rinv_0_lt_compat; lra).
  assert (Ha : 0 < width / height) by (apply Rdiv_lt_0_compat; lra).
  assert (Hd : forall u v, linearDist u v width height mask
                           = - ((v - Mask.y mask) * (width / height))).
  { intros u v. unfold linearDist. cbv zeta.
    replace ((match Mask.rotation mask with Some a => a | None => 0 end)
             * (PI / 180)) with 0.
    - rewrite sin_0, cos_0. ring.
    - destruct Hr as [-> | ->]; ring. }
  unfold maskAlphaPre. rewrite Ht, !Hd.
  apply (clamp01_mono
           (0.5 - - ((v1 - Mask.y mask) * (width / height)) / linearDivisor mask)
           (0.5 - - ((v2 - Mask.y mask) * (width / height)) / linearDivisor mask)).
  unfold Rdiv at 1 3.
  assert ((v1 - Mask.y mask) * (width / height)
          <= (v2 - Mask.y mask) * (width / height)) by nra.
  nra.
Qed.

Lemma maskAlphaPre_linear_unrotated_monotone_witness :
  maskAlphaPre 0.1 0.2 4 3 (linearMask 20) None
  <= maskAlphaPre 0.9 0.8 4 3 (linearMask 20) None.
Proof.
  apply (maskAlphaPre_linear_unrotated_monotone 0.1 0.9 0.2 0.8 4 3
           (linearMask 20) None); try lra.
  - reflexivity.
  - right. reflexivity.
Defined.

(** X12.  A colour mask that has no target colour, or is given no sample,
    selects nothing; with [invert] it selects every pixel at
    [opacity / 100]. *)
Theorem calculateMaskAlpha_color_unset (u v width height : R) (mask : Mask.t)
  (hsl : option Hsl.t) :
  Mask.type mask = color ->
  Mask.targetColor mask = None \/ hsl = None ->
  maskAlphaPre u v width height mask hsl = 0
  /\ calculateMaskAlpha u v width height mask hsl
     = if Mask.invert mask then Mask.opacity mask / 100 else 0.
Proof.
  intros Ht Hn.
  assert (Hp : maskAlphaPre u v width height mask hsl = 0).
  { unfold maskAlphaPre. rewrite Ht.
    destruct Hn as [-> | ->]; [reflexivity |].
    destruct (Mask.targetColor mask); reflexivity. }
  split; [exact Hp |].
  unfold calculateMaskAlpha. rewrite Hp.
  destruct (Mask.invert mask); lra.
Qed.

Lemma calculateMaskAlpha_color_unset_witness :
  maskAlphaPre 0.5 0.5 4 3
    (Mask.mk color None 0.1 0.5 0.5 20 (Some 0) true 100
       DEFAULT_LOCAL_SETTINGS) (Some (Hsl.mk 0 1 0.5)) = 0
  /\ calculateMaskAlpha 0.5 0.5 4 3
       (Mask.mk color None 0.1 0.5 0.5 20 (Some 0) true 100
          DEFAULT_LOCAL_SETTINGS) (Some (Hsl.mk 0 1 0.5))
     = 100 / 100.
Proof.
  apply (calculateMaskAlpha_color_unset 0.5 0.5 4 3
           (Mask.mk color None 0.1 0.5 0.5 20 (Some 0) true 100
              DEFAULT_LOCAL_SETTINGS) (Some (Hsl.mk 0 1 0.5))).
  - reflexivity.
  - left. reflexivity.
Defined.

(** X13.  A colour mask is 1 when the circular hue distance is below
    [colorRange / 100] and the saturation is close to the target's (or the
    target is unsaturated), 0 when the hue distance is at least
    [colorRange / 100 + 0.1], and 0 when the target is saturated and the
    saturations differ by 0.5 or more. *)
Theorem maskAlphaPre_color_zones (u v width height : R) (mask : Mask.t)
  (target sample : Hsl.t) :
  Mask.type mask = color ->
  Mask.targetColor mask = Some target ->
  let hueDiff := Rabs (Hsl.h sample - Hsl.h target) in
  let diff := Rmin hueDiff (1 - hueDiff) in
  let range := Mask.colorRange mask / 100 in
  let satDiff := Rabs (Hsl.s sample - Hsl.s target) in
  (diff < range -> Hsl.s target <= 0.1 \/ satDiff <= 0.3 ->
   maskAlphaPre u v width height mask (Some sample) = 1)
  /\ (range + 0.1 <= diff ->
      maskAlphaPre u v width height mask (Some sample) = 0)
  /\ (0.1 < Hsl.s target -> 0.5 <= satDiff ->
      maskAlphaPre u v width height mask (Some sample) = 0).
Proof.
  intros Ht Hc hueDiff diff range satDiff.
  unfold maskAlphaPre. rewrite Ht, Hc.
  fold hueDiff. fold diff. fold range. fold satDiff.
  repeat split.
  - intros Hd Hs. destruct (Rlt_dec diff range); [| lra].
    destruct (Rgt_dec (Hsl.s target) 0.1); [| reflexivity].
    destruct (Rgt_dec satDiff 0.3); [| reflexivity].
    destruct Hs; lra.
  - intros Hd. destruct (Rlt_dec diff range); [lra |].
    destruct (Rlt_dec diff (range + 0.1)); [lra |].
    destruct (Rgt_dec (Hsl.s target) 0.1); [| reflexivity].
    destruct (Rgt_dec satDiff 0.3); [ring | reflexivity].
  - intros Hs Hd. destruct (Rgt_dec (Hsl.s target) 0.1); [| lra].
    destruct (Rgt_dec satDiff 0.3); [| lra].
    rewrite Rmax_left by lra. ring.
Qed.

Lemma maskAlphaPre_color_zones_witness :
  maskAlphaPre 0.5 0.5 4 3
    (Mask.mk color (Some (Hsl.mk 0 1 0.5)) 10 0.5 0.5 20 (Some 0) false 100
       DEFAULT_LOCAL_SETTINGS) (Some (Hsl.mk 0.5 1 0.5)) = 0.
Proof.
  destruct (maskAlphaPre_color_zones 0.5 0.5 4 3
              (Mask.mk color (Some (Hsl.mk 0 1 0.5)) 10 0.5 0.5 20 (Some 0)
                 false 100 DEFAULT_LOCAL_SETTINGS)
              (Hsl.mk 0 1 0.5) (Hsl.mk 0.5 1 0.5) eq_refl eq_refl)
    as (_ & H & _).
  apply H. simpl. unfold Rmin, Rabs. rdecide.
Defined.

(** X20.  The hue distance of a colour mask is circular: two samples
    whose linear hue distances to the target add up to 1 (and whose
    saturations are equal) get the same alpha. *)
Theorem maskAlphaPre_color_circular (u v width height : R) (mask : Mask.t)
  (target : Hsl.t) (h1 h2 s l1 l2 : R) :
  Mask.type mask = color ->
  Mask.targetColor mask = Some target ->
  Rabs (h1 - Hsl.h target) = 1 - Rabs (h2 - Hsl.h target) ->
  maskAlphaPre u v width height mask (Some (Hsl.mk h1 s l1))
  = maskAlphaPre u v width height mask (Some (Hsl.mk h2 s l2)).
Proof.
  intros Ht Hc Hd. unfold maskAlphaPre. rewrite Ht, Hc.
  cbn [Hsl.h Hsl.s]. rewrite Hd.
  replace (1 - (1 - Rabs (h2 - Hsl.h target)))
    with (Rabs (h2 - Hsl.h target)) by ring.
  rewrite (Rmin_comm (1 - Rabs (h2 - Hsl.h target))). reflexivity.
Qed.

Lemma maskAlphaPre_color_circular_witness :
  maskAlphaPre 0.5 0.5 4 3
    (Mask.mk color (Some (Hsl.mk 0 1 0.5)) 10 0.5 0.5 20 (Some 0) false 100
       DEFAULT_LOCAL_SETTINGS) (Some (Hsl.mk 0.95 1 0.5))
  = maskAlphaPre 0.5 0.5 4 3
      (Mask.mk color (Some (Hsl.mk 0 1 0.5)) 10 0.5 0.5 20 (Some 0) false 100
         DEFAULT_LOCAL_SETTINGS) (Some (Hsl.mk 0.05 1 0.5)).
Proof.
  apply (maskAlphaPre_color_circular 0.5 0.5 4 3
           (Mask.mk color (Some (Hsl.mk 0 1 0.5)) 10 0.5 0.5 20 (Some 0) false
              100 DEFAULT_LOCAL_SETTINGS) (Hsl.mk 0 1 0.5) 0.95 0.05 1 0.5 0.5).
  - reflexivity.
  - reflexivity.
  - simpl. unfold Rabs. rdecide.
Defined.

(** ** FrameCompositor: one mask *)


Lemma calculateMaskAlpha_bounds (u v width height : R) (mask : Mask.t)
  (hsl : option Hsl.t) :
  0 <= Mask.opacity mask <= 100 ->
  0 <= calculateMaskAlpha u v width height mask hsl <= 1.
Proof.
  intros Ho. pose proof (maskAlphaPre_range u v width height mask hsl).
  unfold calculateMaskAlpha. destruct (Mask.invert mask); nra.
Qed.






(** ** LutSampler: well-formed tables *)

Lemma Math_round_error (x : R) :
  x - 1 / 2 < IZR (Math_round x) <= x + 1 / 2.
Proof.
  unfold Math_round. destruct (base_Int_part (x + 1 / 2)). lra.
Qed.

Lemma Math_round_le (x : R) (n : Z) : x <= IZR n -> (Math_round x <= n)%Z.
Proof.
  intros Hx. destruct (Math_round_error x) as [_ Hu].
  assert (H : IZR (Math_round x) < IZR (n + 1)) by (rewrite plus_IZR; lra).
  apply lt_IZR in H. lia.
Qed.

Lemma lattice_coordinate (lutSize : Z) (c : R) :
  (1 <= lutSize)%Z ->
  (0 <= Math_round (clamp c / 255 * IZR (lutSize - 1)) < lutSize)%Z.
Proof.
  intros Hs. pose proof (clamp_range c) as Hc.
  assert (Hm : 0 <= IZR (lutSize - 1)) by (apply IZR_le; lia).
  split.
  - apply Math_round_nonneg. apply Rmult_le_pos; lra.
  - assert (Math_round (clamp c / 255 * IZR (lutSize - 1)) <= lutSize - 1)%Z;
      [| lia].
    apply Math_round_le. nra.
Qed.

Lemma typedGet_Some_inside (data : list R) (idx : Z) (x : R) :
  typedGet data idx = Some x -> (0 <= idx < Z.of_nat (length data))%Z.
Proof.
  unfold typedGet. destruct (idx <? 0)%Z eqn:E; [discriminate |].
  apply Z.ltb_ge in E. intros H.
  assert (N : nth_error data (Z.to_nat idx) <> None) by congruence.
  apply nth_error_Some in N. lia.
Qed.

(** X16.  For a LUT of size at least 1 whose data holds exactly
    [3 * size^3] numbers, the bounds check passes for every pixel: the
    lookup is never skipped and reads the three consecutive entries at the
    flat index. *)
Theorem lutStage_well_formed_never_skips (settings : EditSettings.t)
  (lut : Lut.t) (rgb : R * R * R) :
  (1 <= Lut.size lut)%Z ->
  Z.of_nat (length (Lut.data lut))
  = (3 * (Lut.size lut * Lut.size lut * Lut.size lut))%Z ->
  0 < EditSettings.lutIntensity settings ->
  lutGuard lut (lutIndex (Lut.size lut) rgb) = true
  /\ lutReads settings (Some lut) rgb
     = [lutIndex (Lut.size lut) rgb; (lutIndex (Lut.size lut) rgb + 1)%Z;
        (lutIndex (Lut.size lut) rgb + 2)%Z].
Proof.
  intros Hs Hl Hi.
  assert (G : lutGuard lut (lutIndex (Lut.size lut) rgb) = true).
  { unfold lutGuard. apply Z.ltb_lt. rewrite Hl.
    destruct rgb as [[r g] b]. unfold lutIndex.
    pose proof (lattice_coordinate _ r Hs).
    pose proof (lattice_coordinate _ g Hs).
    pose proof (lattice_coordinate _ b Hs).
    nia. }
  split; [exact G |].
  unfold lutReads. rewrite G.
  destruct (Rgt_dec (EditSettings.lutIntensity settings) 0); [reflexivity | lra].
Qed.

Lemma lutStage_well_formed_never_skips_witness :
  lutGuard identityLut2 (lutIndex (Lut.size identityLut2) (200, 100, 50))
  = true.
Proof.
  apply (lutStage_well_formed_never_skips DEFAULT_SETTINGS identityLut2
           (200, 100, 50)).
  - simpl. lia.
  - reflexivity.
  - simpl. lra.
Defined.

(** X17.  With an identity LUT of size at least 2 at intensity 100, every
    channel leaves stage 4 within half a lattice step,
    [255 / (2 (size - 1))], of the clamped channel it entered with. *)
Theorem lutStage_identity_lut (settings : EditSettings.t) (lut : Lut.t)
  (r g b : R) :
  (2 <= Lut.size lut)%Z -> isIdentityLut lut ->
  EditSettings.lutIntensity settings = 100 ->
  exists r' g' b',
    lutStage settings (Some lut) (r, g, b) = (Some r', Some g', Some b')
    /\ Rabs (r' - clamp r) <= 255 / (2 * IZR (Lut.size lut - 1))
    /\ Rabs (g' - clamp g) <= 255 / (2 * IZR (Lut.size lut - 1))
    /\ Rabs (b' - clamp b) <= 255 / (2 * IZR (Lut.size lut - 1)).
Proof.
  intros Hs Hid Hi.
  assert (Hs1 : (1 <= Lut.size lut)%Z) by lia.
  pose proof (lattice_coordinate _ r Hs1) as Hr.
  pose proof (lattice_coordinate _ g Hs1) as Hg.
  pose proof (lattice_coordinate _ b Hs1) as Hb.
  destruct (Hid _ _ _ Hr Hg Hb) as (E0 & E1 & E2). cbv zeta in E0, E1, E2.
  assert (Hn : 1 <= IZR (Lut.size lut - 1)) by (apply IZR_le; lia).
  assert (Hq : forall c,
             Rabs (IZR (Math_round (clamp c / 255 * IZR (Lut.size lut - 1)))
                   / IZR (Lut.size lut - 1) * 255 - clamp c)
             <= 255 / (2 * IZR (Lut.size lut - 1))).
  { intros c. set (n := IZR (Lut.size lut - 1)) in *.
    destruct (Math_round_error (clamp c / 255 * n)) as [Hlo Hhi].
    set (k := IZR (Math_round (clamp c / 255 * n))) in *.
    assert (Hin : 0 < / n) by (apply Rinv_0_lt_compat; lra).
    assert (E : k / n * 255 - clamp c
                = (k - clamp c / 255 * n) * (255 * / n)) by (field; lra).
    assert (B : 255 / (2 * n) = / 2 * (255 * / n)) by (field; lra).
    rewrite E, B. apply Rabs_le. split; nra. }
  unfold lutStage.
  destruct (Rgt_dec (EditSettings.lutIntensity settings) 0); [| lra].
  assert (I : lutIndex (Lut.size lut) (r, g, b)
              = ((Math_round (clamp r / 255 * IZR (Lut.size lut - 1))
                  + Math_round (clamp g / 255 * IZR (Lut.size lut - 1))
                    * Lut.size lut
                  + Math_round (clamp b / 255 * IZR (Lut.size lut - 1))
                    * (Lut.size lut * Lut.size lut)) * 3)%Z) by reflexivity.
  rewrite I.
  assert (G : lutGuard lut
                ((Math_round (clamp r / 255 * IZR (Lut.size lut - 1))
                  + Math_round (clamp g / 255 * IZR (Lut.size lut - 1))
                    * Lut.size lut
                  + Math_round (clamp b / 255 * IZR (Lut.size lut - 1))
                    * (Lut.size lut * Lut.size lut)) * 3)%Z = true).
  { unfold lutGuard. apply Z.ltb_lt.
    apply typedGet_Some_inside in E2. lia. }
  rewrite G, E0, E1, E2. rewrite Hi. unfold lutBlend.
  do 3 eexists. split; [reflexivity |].
  replace (100 / 100) with 1 by field.
  repeat split.
  - replace (r * (1 - 1) + _ * 255 * 1)
      with (IZR (Math_round (clamp r / 255 * IZR (Lut.size lut - 1)))
            / IZR (Lut.size lut - 1) * 255) by ring.
    apply Hq.
  - replace (g * (1 - 1) + _ * 255 * 1)
      with (IZR (Math_round (clamp g / 255 * IZR (Lut.size lut - 1)))
            / IZR (Lut.size lut - 1) * 255) by ring.
    apply Hq.
  - replace (b * (1 - 1) + _ * 255 * 1)
      with (IZR (Math_round (clamp b / 255 * IZR (Lut.size lut - 1)))
            / IZR (Lut.size lut - 1) * 255) by ring.
    apply Hq.
Qed.

Lemma typedGet_of_nat (data : list R) (n : nat) :
  typedGet data (Z.of_nat n) = nth_error data n.
Proof.
  unfold typedGet. destruct (Z.of_nat n <? 0)%Z eqn:E.
  - apply Z.ltb_lt in E. lia.
  - rewrite Nat2Z.id. reflexivity.
Qed.

Lemma identityLut2_isIdentityLut : isIdentityLut identityLut2.
Proof.
  intros i j k Hi Hj Hk. simpl in Hi, Hj, Hk.
  assert (Ei : i = 0%Z \/ i = 1%Z) by lia.
  assert (Ej : j = 0%Z \/ j = 1%Z) by lia.
  assert (Ek : k = 0%Z \/ k = 1%Z) by lia.
  destruct Ei as [-> | ->], Ej as [-> | ->], Ek as [-> | ->];
    cbv zeta; cbn [Lut.size Lut.data identityLut2];
    repeat split;
    match goal with
    | |- typedGet _ ?z = _ =>
      let n := eval vm_compute in (Z.to_nat z) in
      change z with (Z.of_nat n); rewrite typedGet_of_nat;
      cbn [nth_error]; f_equal; simpl; lra
    end.
Qed.

Lemma lutStage_identity_lut_witness :
  exists r' g' b',
    lutStage DEFAULT_SETTINGS (Some identityLut2) (200, 100, 50)
    = (Some r', Some g', Some b')
    /\ Rabs (r' - clamp 200) <= 255 / (2 * IZR (Lut.size identityLut2 - 1))
    /\ Rabs (g' - clamp 100) <= 255 / (2 * IZR (Lut.size identityLut2 - 1))
    /\ Rabs (b' - clamp 50) <= 255 / (2 * IZR (Lut.size identityLut2 - 1)).
Proof.
  apply (lutStage_identity_lut DEFAULT_SETTINGS identityLut2 200 100 50).
  - simpl. lia.
  - exact identityLut2_isIdentityLut.
  - reflexivity.
Defined.

(** ** FrameCompositor: the pixel loop, byte by byte *)

Lemma pixelLoop_prefix_nth (settings : EditSettings.t)
  (activeLut : option Lut.t) (width height : nat) (data : list Z) (n : nat) :
  length (fold_left (pixelStep settings activeLut width height data)
            (map (fun k => (4 * k)%nat) (seq 0 n)) data) = length data
  /\ forall j, (j < length data)%nat ->
       nth j (fold_left (pixelStep settings activeLut width height data)
                (map (fun k => (4 * k)%nat) (seq 0 n)) data) 0%Z
       = if (j / 4 <? n)%nat
         then pixelByte settings activeLut width height data j
         else nth j data 0%Z.
Proof.
  induction n as [| n IH].
  - split; [reflexivity |]. intros j _. reflexivity.
  - rewrite seq_S, map_app, fold_left_app.
    destruct IH as [Hl Hb].
    set (out := fold_left _ (map _ (seq 0 n)) data) in *.
    cbn [map fold_left Nat.add]. unfold pixelStep.
    destruct (processPixel settings activeLut width height data (4 * n))
      as [[r g] b] eqn:P.
    split; [rewrite !store_length; exact Hl |].
    intros j Hj. rewrite !nth_store, !store_length, Hl, (Hb j Hj).
    divmod4 j.
    destruct (Nat.ltb_spec j (length data)) as [_ | F]; [| lia].
    rewrite !andb_true_r.
    destruct (Nat.eqb_spec (4 * n + 2) j) as [E2 | N2].
    { assert (Q : (j / 4 = n)%nat) by lia. assert (M : (j mod 4 = 2)%nat) by lia.
      destruct (Nat.ltb_spec (j / 4) (S n)); [| lia].
      unfold pixelByte. rewrite Q, P, M. reflexivity. }
    destruct (Nat.eqb_spec (4 * n + 1) j) as [E1 | N1].
    { assert (Q : (j / 4 = n)%nat) by lia. assert (M : (j mod 4 = 1)%nat) by lia.
      destruct (Nat.ltb_spec (j / 4) (S n)); [| lia].
      unfold pixelByte. rewrite Q, P, M. reflexivity. }
    destruct (Nat.eqb_spec (4 * n) j) as [E0 | N0].
    { assert (Q : (j / 4 = n)%nat) by lia. assert (M : (j mod 4 = 0)%nat) by lia.
      destruct (Nat.ltb_spec (j / 4) (S n)); [| lia].
      unfold pixelByte. rewrite Q, P, M. reflexivity. }
    destruct (Nat.ltb_spec (j / 4) n) as [L | L].
    + destruct (Nat.ltb_spec (j / 4) (S n)); [reflexivity | lia].
    + destruct (Nat.ltb_spec (j / 4) (S n)) as [L' | L']; [| reflexivity].
      assert (Q : (j / 4 = n)%nat) by lia.
      assert (M : (j mod 4 = 3)%nat) by lia.
      unfold pixelByte. rewrite Q, P, M. reflexivity.
Qed.

Lemma pixelLoop_nth (settings : EditSettings.t) (activeLut : option Lut.t)
  (width height : nat) (data : list Z) (j : nat) :
  (j < length data)%nat ->
  nth j (pixelLoop settings activeLut width height data) 0%Z
  = pixelByte settings activeLut width height data j.
Proof.
  intros Hj.
  destruct (pixelLoop_prefix_nth settings activeLut width height data
              ((length data + 3) / 4)) as [_ Hb].
  unfold pixelLoop, pixelOffsets. rewrite (Hb j Hj).
  divmod4 j. divmod4 (length data + 3)%nat.
  destruct (Nat.ltb_spec (j / 4) ((length data + 3) / 4)); [reflexivity | lia].
Qed.

Lemma processPixel_local (settings : EditSettings.t)
  (activeLut : option Lut.t) (width height : nat) (data1 data2 : list Z)
  (i : nat) :
  nth i data1 0%Z = nth i data2 0%Z ->
  nth (i + 1) data1 0%Z = nth (i + 1) data2 0%Z ->
  nth (i + 2) data1 0%Z = nth (i + 2) data2 0%Z ->
  processPixel settings activeLut width height data1 i
  = processPixel settings activeLut width height data2 i.
Proof.
  intros H0 H1 H2. unfold processPixel, byteAt. rewrite H0, H1, H2.
  reflexivity.
Qed.

(** X18.  The pixel loop is local: two buffers of the same length that
    agree on the three colour bytes of pixel [k] give the same three colour
    bytes for pixel [k], whatever the other pixels hold. *)
Theorem pixelLoop_pixel_local (settings : EditSettings.t)
  (activeLut : option Lut.t) (width height : nat) (data1 data2 : list Z)
  (k : nat) :
  length data1 = length data2 ->
  (4 * k + 3 < length data1)%nat ->
  (forall c, (c < 3)%nat ->
     nth (4 * k + c) data1 0%Z = nth (4 * k + c) data2 0%Z) ->
  forall c, (c < 3)%nat ->
    nth (4 * k + c) (pixelLoop settings activeLut width height data1) 0%Z
    = nth (4 * k + c) (pixelLoop settings activeLut width height data2) 0%Z.
Proof.
  intros Hl Hk Hd c Hc.
  rewrite !pixelLoop_nth by lia.
  unfold pixelByte. divmod4 (4 * k + c)%nat.
  assert (Q : ((4 * k + c) / 4 = k)%nat) by lia.
  assert (M : ((4 * k + c) mod 4 = c)%nat) by lia.
  rewrite Q, M.
  rewrite (processPixel_local settings activeLut width height data1 data2 (4 * k)).
  - destruct (processPixel settings activeLut width height data2 (4 * k))
      as [[r g] b].
    destruct c as [| [| [| c]]]; try reflexivity. lia.
  - rewrite <- (Nat.add_0_r (4 * k)). apply Hd. lia.
  - apply Hd. lia.
  - apply Hd. lia.
Qed.

Lemma pixelLoop_pixel_local_witness :
  nth (4 * 0 + 1)
    (pixelLoop DEFAULT_SETTINGS None 2 1 [10; 20; 30; 40; 50; 60; 70; 80]%Z)
    0%Z
  = nth (4 * 0 + 1)
      (pixelLoop DEFAULT_SETTINGS None 2 1 [10; 20; 30; 99; 1; 2; 3; 4]%Z)
      0%Z.
Proof.
  apply (pixelLoop_pixel_local DEFAULT_SETTINGS None 2 1
           [10; 20; 30; 40; 50; 60; 70; 80]%Z [10; 20; 30; 99; 1; 2; 3; 4]%Z 0).
  - reflexivity.
  - simpl. lia.
  - intros c Hc. destruct c as [| [| [| c]]]; try reflexivity. lia.
  - lia.
Defined.

Lemma ToUint8Clamp_byte (z : Z) :
  isByte z -> ToUint8Clamp (Some (clamp (IZR z))) = z.
Proof.
  intros [H0 H1]. apply IZR_le in H0. apply IZR_le in H1.
  rewrite clamp_inside by lra. unfold ToUint8Clamp.
  destruct (Rle_dec (IZR z) 0) as [L | L].
  { apply le_IZR in L. apply le_IZR in H0. lia. }
  destruct (Rle_dec 255 (IZR z)) as [U | U].
  { apply le_IZR in U. apply le_IZR in H1. lia. }
  assert (E : Int_part (IZR z) = z).
  { symmetry. apply Int_part_spec. lra. }
  rewrite E.
  destruct (Rlt_dec (IZR z + 0.5) (IZR z)); [lra |].
  destruct (Rlt_dec (IZR z) (IZR z + 0.5)); [reflexivity | lra].
Qed.

Lemma processPixel_before (li : R) (crop : option Crop.t) (mirrored : bool)
  (activeLut : option Lut.t) (width height : nat) (data : list Z) (i : nat) :
  activeLut = None \/ li <= 0 ->
  processPixel (beforeSettings li crop mirrored) activeLut width height data i
  = (Some (clamp (byteAt data i)), Some (clamp (byteAt data (i + 1))),
     Some (clamp (byteAt data (i + 2)))).
Proof.
  intros Hl. unfold processPixel.
  change (globalLocalSettings (beforeSettings li crop mirrored))
    with (LocalSettings.mk 0 0 0 0 0 0 0 0 0).
  rewrite applyAdjustments_zero.
  rewrite mixerStage_zero_mixer by reflexivity.
  unfold maskStage. cbn [EditSettings.masks beforeSettings].
  unfold lutStage. cbn [EditSettings.lutIntensity beforeSettings].
  destruct Hl as [-> | Hl]; [reflexivity |].
  destruct activeLut; [| reflexivity].
  destruct (Rgt_dec li 0); [lra | reflexivity].
Qed.

(** X19.  With the settings of the compare view's "before" side (the
    defaults, with any crop and mirror flag) and no LUT, or a LUT intensity
    of 0 or less, [processImage] returns the image it was given. *)
Theorem processImage_before_identity (imageData : ImageData.t) (li : R)
  (crop : option Crop.t) (mirrored : bool) (activeLut : option Lut.t) :
  length (ImageData.data imageData)
  = (4 * ImageData.width imageData * ImageData.height imageData)%nat ->
  Forall isByte (ImageData.data imageData) ->
  activeLut = None \/ li <= 0 ->
  processImage imageData (beforeSettings li crop mirrored) activeLut
  = imageData.
Proof.
  intros _ Hb Hl. destruct imageData as [data width height].
  unfold processImage. cbn [ImageData.data ImageData.width ImageData.height].
  f_equal. unfold texturePass.
  cbn [EditSettings.texture beforeSettings].
  destruct (Req_EM_T 0 0) as [_ | F]; [| lra].
  apply (nth_ext _ _ 0%Z 0%Z).
  - apply pixelLoop_sameAlpha.
  - intros j Hj.
    assert (Hj' : (j < length data)%nat).
    { destruct (pixelLoop_sameAlpha (beforeSettings li crop mirrored)
                  activeLut width height data) as [E _].
      rewrite <- E. exact Hj. }
    rewrite pixelLoop_nth by exact Hj'.
    unfold pixelByte. rewrite processPixel_before by exact Hl.
    assert (B : isByte (nth j data 0%Z)).
    { rewrite Forall_forall in Hb. apply Hb. apply nth_In. exact Hj'. }
    divmod4 j. unfold byteAt.
    destruct (j mod 4)%nat as [| [| [| m]]] eqn:M.
    + replace (4 * (j / 4))%nat with j by lia. apply ToUint8Clamp_byte, B.
    + replace (4 * (j / 4) + 1)%nat with j by lia. apply ToUint8Clamp_byte, B.
    + replace (4 * (j / 4) + 2)%nat with j by lia. apply ToUint8Clamp_byte, B.
    + reflexivity.
Qed.

Lemma processImage_before_identity_witness :
  processImage (onePixel 10 20 30 40) (beforeSettings 100 None true) None
  = onePixel 10 20 30 40.
Proof.
  apply (processImage_before_identity (onePixel 10 20 30 40) 100 None true
           None).
  - reflexivity.
  - unfold onePixel, isByte. cbn [ImageData.data].
    repeat constructor; lia.
  - left. reflexivity.
Defined.

(** ** TextureFilter: further properties *)

Lemma interior_index (width x y c : nat) :
  (x < width)%nat -> (c < 4)%nat ->
  (((y * width + x) * 4 + c) / 4 = y * width + x
   /\ (y * width + x) mod width = x
   /\ (y * width + x) / width = y)%nat.
Proof.
  intros Hx Hc. repeat split.
  - divmod4 ((y * width + x) * 4 + c)%nat. lia.
  - rewrite Nat.add_comm, Nat.Div0.mod_add. apply Nat.mod_small. exact Hx.
  - rewrite Nat.div_add_l by lia. rewrite Nat.div_small by exact Hx. lia.
Qed.

(** X21.  The texture pass never writes a byte of a border pixel, and it
    returns an image less than 3 pixels wide or high unchanged. *)
Theorem texturePass_border (settings : EditSettings.t) (width height : nat)
  (output : list Z) :
  (forall j,
     onBorder width height ((j / 4) mod width) ((j / 4) / width) ->
     nth j (texturePass settings width height output) 0%Z = nth j output 0%Z)
  /\ ((width < 3)%nat \/ (height < 3)%nat ->
      texturePass settings width height output = output).
Proof.
  assert (B : length (texturePass settings width height output)
              = length output
              /\ forall j,
                   onBorder width height ((j / 4) mod width) ((j / 4) / width) ->
                   nth j (texturePass settings width height output) 0%Z
                   = nth j output 0%Z).
  { unfold texturePass.
    destruct (Req_EM_T (EditSettings.texture settings) 0);
      [split; reflexivity |].
    set (P := fun out : list Z =>
                length out = length output
                /\ forall j,
                     onBorder width height ((j / 4) mod width)
                       ((j / 4) / width) ->
                     nth j out 0%Z = nth j output 0%Z).
    apply (fold_left_invariant P); [split; reflexivity |].
    intros out y Hy Ho. unfold textureRow.
    apply (fold_left_invariant P); [exact Ho |].
    intros out' x Hx Ho'. unfold textureChannels.
    apply (fold_left_invariant P); [exact Ho' |].
    intros out'' c Hc [Hl Hn]. split; [rewrite store_length; exact Hl |].
    intros j Hj. rewrite nth_store_other; [apply Hn; exact Hj |].
    intros <-. apply in_seq in Hy. apply in_seq in Hx.
    assert (Hc' : (c < 4)%nat)
      by (destruct Hc as [<- | [<- | [<- | []]]]; lia).
    destruct (interior_index width x y c) as (E1 & E2 & E3); [lia | lia |].
    rewrite E1, E2, E3 in Hj. unfold onBorder in Hj. lia. }
  destruct B as [Bl Bn]. split; [exact Bn |].
  intros Hs. apply (nth_ext _ _ 0%Z 0%Z); [exact Bl |].
  intros j _. apply Bn. unfold onBorder.
  destruct Hs as [Hw | Hh].
  - destruct width as [| [| [| w]]]; lia.
  - destruct height as [| [| [| h]]]; lia.
Qed.

Lemma texturePass_border_witness :
  texturePass DEFAULT_SETTINGS 2 5 [1; 2; 3]%Z = [1; 2; 3]%Z.
Proof.
  apply (proj2 (texturePass_border DEFAULT_SETTINGS 2 5 [1; 2; 3]%Z)).
  left. lia.
Defined.

Lemma store_same (a : list Z) (i : nat) (v : Z) :
  nth i a 0%Z = v -> (i < length a)%nat -> store a i v = a.
Proof.
  revert i. induction a as [| x a IH]; intros [| i] Hv Hi; simpl in *;
    try lia.
  - rewrite Hv. reflexivity.
  - rewrite IH; [reflexivity | exact Hv | lia].
Qed.

(** X22.  An image of one colour (every pixel holds the same four bytes)
    is returned unchanged by the texture pass, for every texture amount. *)
Theorem texturePass_flat (settings : EditSettings.t) (width height : nat)
  (output : list Z) :
  length output = (4 * width * height)%nat ->
  Forall isByte output ->
  (forall j, (j < length output)%nat ->
     nth j output 0%Z = nth (j mod 4) output 0%Z) ->
  texturePass settings width height output = output.
Proof.
  intros Hl Hb Hp. unfold texturePass.
  destruct (Req_EM_T (EditSettings.texture settings) 0); [reflexivity |].
  assert (Hr : forall m c, (m < width * height)%nat -> (c < 3)%nat ->
                 byteAt output (m * 4 + c) = IZR (nth c output 0%Z)).
  { intros m c Hm Hc. unfold byteAt. f_equal.
    rewrite Hp by lia. f_equal. divmod4 (m * 4 + c)%nat. lia. }
  apply (fold_left_invariant (fun out => out = output)); [reflexivity |].
  intros out y Hy ->. unfold textureRow.
  apply (fold_left_invariant (fun out => out = output)); [reflexivity |].
  intros out x Hx ->. unfold textureChannels.
  apply (fold_left_invariant (fun out => out = output)); [reflexivity |].
  intros out c Hc ->.
  apply in_seq in Hy. apply in_seq in Hx.
  assert (Hc' : (c < 3)%nat)
    by (destruct Hc as [<- | [<- | [<- | []]]]; lia).
  assert (Hi : ((y * width + x) * 4 + c < length output)%nat) by nia.
  apply store_same; [| exact Hi].
  unfold textureValue. cbv zeta.
  rewrite !Hr by nia.
  assert (B : isByte (nth c output 0%Z)).
  { rewrite Forall_forall in Hb. apply Hb. apply nth_In. nia. }
  set (C := IZR (nth c output 0%Z)).
  replace (C + (C - (C + C + C + C + C + C + C + C + C) / 9) * _) with C.
  - unfold C. rewrite ToUint8Clamp_byte by exact B.
    rewrite Hp by exact Hi. f_equal. divmod4 ((y * width + x) * 4 + c)%nat. lia.
  - replace ((C + C + C + C + C + C + C + C + C) / 9) with C by field.
    ring.
Qed.

Lemma texturePass_flat_witness :
  texturePass (textureSettings 50) 3 3 flatImage3 = flatImage3.
Proof.
  apply (texturePass_flat (textureSettings 50) 3 3 flatImage3).
  - reflexivity.
  - unfold isByte, flatImage3. simpl. repeat constructor; lia.
  - intros j Hj. unfold flatImage3 in *. simpl in Hj.
    do 36 (destruct j as [| j]; [reflexivity |]). lia.
Defined.

(** ** The mask overlay of [App.render] *)

Lemma overlayUV_maskUV (settings : EditSettings.t) (width height i : nat) :
  overlayUV settings width height i = maskUV settings width height i.
Proof.
  unfold overlayUV, maskUV, localUV, remapUV.
  destruct (EditSettings.isMirrored settings), (EditSettings.crop settings);
    reflexivity.
Qed.

Lemma ToUint8Clamp_le (x : R) (n : Z) :
  (0 <= n)%Z -> x <= IZR n -> (ToUint8Clamp (Some x) <= n)%Z.
Proof.
  intros Hn Hx. unfold ToUint8Clamp.
  destruct (Rle_dec x 0); [lia |].
  destruct (Rle_dec 255 x) as [U | U].
  { assert (H : IZR 255 <= IZR n) by lra. apply le_IZR in H. exact H. }
  destruct (base_Int_part x) as [Hlo Hhi].
  assert (L : (Int_part x <= n)%Z) by (apply le_IZR; lra).
  destruct (Rlt_dec (IZR (Int_part x) + 0.5) x) as [A | A].
  { assert (H : IZR (Int_part x) < IZR n) by lra. apply lt_IZR in H. lia. }
  destruct (Rlt_dec x (IZR (Int_part x) + 0.5)); [exact L |].
  destruct (Z.even (Int_part x)); [exact L |].
  assert (H : IZR (Int_part x) < IZR n) by lra. apply lt_IZR in H. lia.
Qed.

(** X23.  For a mask with opacity in [0, 100], the overlay pixel is either
    fully zero or red with an alpha byte of at most 130; and where the
    overlay pixel is zero, the mask leaves the pixel of the same position
    unchanged in [processImage] (the raw buffer of the overlay being the
    buffer that [processImage] receives). *)
Theorem overlayPixel_matches_maskStep (settings : EditSettings.t)
  (mask : Mask.t) (width height : nat) (data : list Z) (i : nat)
  (rgb : R * R * R) :
  0 <= Mask.opacity mask <= 100 ->
  (overlayPixel settings mask width height data i = (0, 0, 0, 0)%Z
   \/ exists a,
        overlayPixel settings mask width height data i = (255, 0, 0, a)%Z
        /\ (0 <= a <= 130)%Z)
  /\ (overlayPixel settings mask width height data i = (0, 0, 0, 0)%Z ->
      maskStep (maskUV settings width height i) width height
        (byteAt data i, byteAt data (i + 1), byteAt data (i + 2)) rgb mask
      = rgb).
Proof.
  intros Ho. unfold overlayPixel, maskStep.
  rewrite overlayUV_maskUV.
  destruct (maskUV settings width height i) as [u v].
  destruct rgb as [[r g] b].
  set (hsl := match Mask.type mask with
              | color =>
                let '(h, s, l) :=
                  rgbToHsl (byteAt data i) (byteAt data (i + 1))
                    (byteAt data (i + 2)) in
                Some (Hsl.mk h s l)
              | linear => None
              end).
  pose proof (calculateMaskAlpha_bounds u v (INR width) (INR height) mask hsl
                Ho) as Ha.
  set (alpha := calculateMaskAlpha u v (INR width) (INR height) mask hsl) in *.
  destruct (Rgt_dec alpha 0) as [P | N].
  - split; [| discriminate]. right. eexists. split; [reflexivity |].
    split.
    + apply ToUint8Clamp_isByte.
    + apply ToUint8Clamp_le; [lia | nra].
  - split; [left; reflexivity |]. intros _.
    destruct (Req_EM_T (Mask.opacity mask) 0); reflexivity.
Qed.

Lemma overlayPixel_matches_maskStep_witness :
  overlayPixel DEFAULT_SETTINGS (linearMask 20) 4 4 [10; 20; 30; 255]%Z 0
  = (0, 0, 0, 0)%Z
  \/ exists a,
       overlayPixel DEFAULT_SETTINGS (linearMask 20) 4 4 [10; 20; 30; 255]%Z 0
       = (255, 0, 0, a)%Z
       /\ (0 <= a <= 130)%Z.
Proof.
  apply (overlayPixel_matches_maskStep DEFAULT_SETTINGS (linearMask 20) 4 4
           [10; 20; 30; 255]%Z 0 (1, 2, 3)).
  simpl. lra.
Defined.

(** ** Source rectangles and the mask coordinate *)

(** X24.  The export and the preview hand the same source rectangle to
    [drawImage], for every crop and mirror flag. *)
Theorem exportSource_previewSource (settings : EditSettings.t)
  (naturalWidth naturalHeight : R) :
  exportSource settings naturalWidth naturalHeight
  = previewSource settings naturalWidth naturalHeight.
Proof.
  unfold exportSource, previewSource.
  destruct (EditSettings.crop settings) as [c |],
    (EditSettings.isMirrored settings); try reflexivity.
  repeat f_equal; ring.
Qed.




(** ** The crop drag of [App.handleMouseMove] *)

Lemma quotient_nonneg (c a : R) : 0 < a -> 0 <= c -> 0 <= c / a /\ c / a * a = c.
Proof.
  intros Ha Hc. split; [| field; lra].
  apply Rmult_le_pos; [exact Hc |]. left. apply Rinv_0_lt_compat. exact Ha.
Qed.

Lemma cornerSize_spec (aspect rawW rawH : R) :
  0 < aspect -> 0 <= rawW -> 0 <= rawH ->
  0 <= fst (cornerSize aspect rawW rawH)
  /\ 0 <= snd (cornerSize aspect rawW rawH)
  /\ fst (cornerSize aspect rawW rawH)
     = snd (cornerSize aspect rawW rawH) * aspect.
Proof.
  intros Ha Hw Hh. unfold cornerSize.
  destruct (quotient_nonneg rawW aspect Ha Hw) as [Hq Eq].
  destruct (Rlt_dec _ _); cbn [fst snd]; repeat split; nra.
Qed.

Lemma aspect_pos (prev : CropRect.t) :
  validCrop prev -> 0 < CropRect.w prev / CropRect.h prev.
Proof.
  intros (_ & _ & Hw & Hh & _). apply Rdiv_lt_0_compat; lra.
Qed.

Lemma dragCrop_move (isAltPressed : bool) (x y : R) (prev : CropRect.t) :
  validCrop prev ->
  validCrop (dragCrop Handle.move isAltPressed x y prev)
  /\ CropRect.w (dragCrop Handle.move isAltPressed x y prev) = CropRect.w prev
  /\ CropRect.h (dragCrop Handle.move isAltPressed x y prev) = CropRect.h prev.
Proof.
  intros (Hx & Hy & Hw & Hh & Hxw & Hyh).
  unfold dragCrop, validCrop. cbn [CropRect.x CropRect.y CropRect.w CropRect.h].
  repeat split; try lra; unfold Rmax, Rmin; rdecide.
Qed.

Lemma dragCrop_edge (x y : R) (prev : CropRect.t) :
  validCrop prev ->
  (validCrop (dragCrop Handle.t false x y prev)
   /\ CropRect.y (dragCrop Handle.t false x y prev)
      + CropRect.h (dragCrop Handle.t false x y prev)
      = CropRect.y prev + CropRect.h prev)
  /\ (validCrop (dragCrop Handle.b false x y prev)
      /\ CropRect.y (dragCrop Handle.b false x y prev) = CropRect.y prev)
  /\ (validCrop (dragCrop Handle.l false x y prev)
      /\ CropRect.x (dragCrop Handle.l false x y prev)
         + CropRect.w (dragCrop Handle.l false x y prev)
         = CropRect.x prev + CropRect.w prev)
  /\ (validCrop (dragCrop Handle.r false x y prev)
      /\ CropRect.x (dragCrop Handle.r false x y prev) = CropRect.x prev).
Proof.
  intros (Hx & Hy & Hw & Hh & Hxw & Hyh).
  unfold dragCrop, validCrop.
  repeat split;
    repeat match goal with
           | |- context [Rlt_dec ?a ?b] =>
             nodec a; nodec b; destruct (Rlt_dec a b)
           | |- context [Rgt_dec ?a ?b] =>
             nodec a; nodec b; destruct (Rgt_dec a b)
           end;
    cbn [CropRect.x CropRect.y CropRect.w CropRect.h];
    unfold Rmax; rdecide; lra.
Qed.

(** X26.  Moving a valid crop rectangle keeps its size and keeps it inside
    the image; dragging one of its four edges (without Alt) keeps it valid
    and leaves the opposite edge where it was. *)
Theorem dragCrop_move_or_edge (x y : R) (prev : CropRect.t) :
  validCrop prev ->
  (forall isAltPressed,
     validCrop (dragCrop Handle.move isAltPressed x y prev)
     /\ CropRect.w (dragCrop Handle.move isAltPressed x y prev)
        = CropRect.w prev
     /\ CropRect.h (dragCrop Handle.move isAltPressed x y prev)
        = CropRect.h prev)
  /\ (validCrop (dragCrop Handle.t false x y prev)
      /\ CropRect.y (dragCrop Handle.t false x y prev)
         + CropRect.h (dragCrop Handle.t false x y prev)
         = CropRect.y prev + CropRect.h prev)
  /\ (validCrop (dragCrop Handle.b false x y prev)
      /\ CropRect.y (dragCrop Handle.b false x y prev) = CropRect.y prev)
  /\ (validCrop (dragCrop Handle.l false x y prev)
      /\ CropRect.x (dragCrop Handle.l false x y prev)
         + CropRect.w (dragCrop Handle.l false x y prev)
         = CropRect.x prev + CropRect.w prev)
  /\ (validCrop (dragCrop Handle.r false x y prev)
      /\ CropRect.x (dragCrop Handle.r false x y prev) = CropRect.x prev).
Proof.
  intros Hv. split.
  - intros alt. apply dragCrop_move. exact Hv.
  - apply dragCrop_edge. exact Hv.
Qed.

Lemma dragCrop_move_or_edge_witness :
  validCrop (dragCrop Handle.b false 0.9 1.1 (CropRect.mk 0.2 0.2 0.5 0.5)).
Proof.
  destruct (dragCrop_move_or_edge 0.9 1.1 (CropRect.mk 0.2 0.2 0.5 0.5))
    as (_ & _ & (H & _) & _).
  - unfold validCrop. simpl. lra.
  - exact H.
Defined.

Ltac corner_setup prev fX fY :=
  let a := fresh "a" in
  let Ha := fresh "Ha" in
  let W0 := fresh "W0" in
  let H0 := fresh "H0" in
  pose proof (aspect_pos prev ltac:(assumption)) as Ha;
  set (a := CropRect.w prev / CropRect.h prev) in *;
  match goal with
  | |- context [cornerSize a ?rw ?rh] =>
    let S := fresh "S" in
    pose proof (cornerSize_spec a rw rh Ha (Rabs_pos _) (Rabs_pos _)) as S;
    destruct (cornerSize a rw rh) as [W0 H0];
    cbn [fst snd] in S; destruct S as (? & ? & ?)
  end.

Ltac corner_finish :=
  unfold validCrop; cbn [CropRect.x CropRect.y CropRect.w CropRect.h];
  unfold Rmax; repeat split; rdecide; nra.

(** X27.  Dragging the bottom-right, top-left or bottom-left corner of a
    valid crop rectangle keeps it valid and leaves the opposite corner where
    it was. *)
Theorem dragCrop_corner (isAltPressed : bool) (x y : R) (prev : CropRect.t) :
  validCrop prev ->
  (validCrop (dragCrop Handle.br isAltPressed x y prev)
   /\ CropRect.x (dragCrop Handle.br isAltPressed x y prev) = CropRect.x prev
   /\ CropRect.y (dragCrop Handle.br isAltPressed x y prev) = CropRect.y prev)
  /\ (validCrop (dragCrop Handle.tl isAltPressed x y prev)
      /\ CropRect.x (dragCrop Handle.tl isAltPressed x y prev)
         + CropRect.w (dragCrop Handle.tl isAltPressed x y prev)
         = CropRect.x prev + CropRect.w prev
      /\ CropRect.y (dragCrop Handle.tl isAltPressed x y prev)
         + CropRect.h (dragCrop Handle.tl isAltPressed x y prev)
         = CropRect.y prev + CropRect.h prev)
  /\ (validCrop (dragCrop Handle.bl isAltPressed x y prev)
      /\ CropRect.x (dragCrop Handle.bl isAltPressed x y prev)
         + CropRect.w (dragCrop Handle.bl isAltPressed x y prev)
         = CropRect.x prev + CropRect.w prev
      /\ CropRect.y (dragCrop Handle.bl isAltPressed x y prev)
         = CropRect.y prev).
Proof.
  intros Hv. pose proof Hv as (Hx & Hy & Hw & Hh & Hxw & Hyh).
  split; [| split].
  - unfold dragCrop. cbv zeta.
    corner_setup prev (CropRect.x prev) (CropRect.y prev).
    destruct (quotient_nonneg (1 - CropRect.x prev) a) as [Q1 E1]; try lra.
    set (q := (1 - CropRect.x prev) / a) in *.
    destruct (Rgt_dec (CropRect.x prev + W0) 1);
      match goal with
      | |- context [Rgt_dec (CropRect.y prev + ?hh) 1] =>
        destruct (Rgt_dec (CropRect.y prev + hh) 1)
      end; corner_finish.
  - unfold dragCrop. cbv zeta.
    corner_setup prev (CropRect.x prev + CropRect.w prev)
      (CropRect.y prev + CropRect.h prev).
    destruct (quotient_nonneg (CropRect.x prev + CropRect.w prev) a)
      as [Q1 E1]; try lra.
    set (q := (CropRect.x prev + CropRect.w prev) / a) in *.
    destruct (Rlt_dec (CropRect.x prev + CropRect.w prev - W0) 0);
      match goal with
      | |- context [Rlt_dec (CropRect.y prev + CropRect.h prev - ?hh) 0] =>
        destruct (Rlt_dec (CropRect.y prev + CropRect.h prev - hh) 0)
      end; corner_finish.
  - unfold dragCrop. cbv zeta.
    corner_setup prev (CropRect.x prev + CropRect.w prev) (CropRect.y prev).
    destruct (quotient_nonneg (CropRect.x prev + CropRect.w prev) a)
      as [Q1 E1]; try lra.
    set (q := (CropRect.x prev + CropRect.w prev) / a) in *.
    destruct (Rlt_dec (CropRect.x prev + CropRect.w prev - W0) 0);
      match goal with
      | |- context [Rgt_dec (CropRect.y prev + ?hh) 1] =>
        destruct (Rgt_dec (CropRect.y prev + hh) 1)
      end; corner_finish.
Qed.

Lemma dragCrop_corner_witness :
  validCrop (dragCrop Handle.br false 1.1 1.1 (CropRect.mk 0.2 0.2 0.5 0.25)).
Proof.
  destruct (dragCrop_corner false 1.1 1.1 (CropRect.mk 0.2 0.2 0.5 0.25))
    as ((H & _) & _).
  - unfold validCrop. simpl. lra.
  - exact H.
Defined.

(** X28.  Dragging the top-right corner keeps the left edge and puts the
    top edge at the old bottom edge minus the new width; for a square crop
    rectangle this keeps the rectangle valid and the bottom edge where it
    was. *)
Theorem dragCrop_top_right (isAltPressed : bool) (x y : R)
  (prev : CropRect.t) :
  validCrop prev ->
  CropRect.x (dragCrop Handle.tr isAltPressed x y prev) = CropRect.x prev
  /\ CropRect.y (dragCrop Handle.tr isAltPressed x y prev)
     + CropRect.w (dragCrop Handle.tr isAltPressed x y prev)
     = CropRect.y prev + CropRect.h prev
  /\ (CropRect.w prev = CropRect.h prev ->
      validCrop (dragCrop Handle.tr isAltPressed x y prev)
      /\ CropRect.y (dragCrop Handle.tr isAltPressed x y prev)
         + CropRect.h (dragCrop Handle.tr isAltPressed x y prev)
         = CropRect.y prev + CropRect.h prev).
Proof.
  intros Hv. pose proof Hv as (Hx & Hy & Hw & Hh & Hxw & Hyh).
  unfold dragCrop. cbv zeta.
  corner_setup prev (CropRect.x prev) (CropRect.y prev + CropRect.h prev).
  destruct (quotient_nonneg (1 - CropRect.x prev) a) as [Q1 E1]; try lra.
  set (q := (1 - CropRect.x prev) / a) in *.
  destruct (Rgt_dec (CropRect.x prev + W0) 1);
    match goal with
    | |- context [Rlt_dec (CropRect.y prev + CropRect.h prev - ?hh) 0] =>
      destruct (Rlt_dec (CropRect.y prev + CropRect.h prev - hh) 0)
    end;
    cbn [CropRect.x CropRect.y CropRect.w CropRect.h];
    (split; [reflexivity |]); (split; [ring |]);
    intros Hsq;
    assert (Ea : a = 1) by (unfold a; rewrite Hsq; field; lra);
    rewrite Ea in *; corner_finish.
Qed.

Lemma dragCrop_top_right_witness :
  CropRect.x (dragCrop Handle.tr false 0.9 0.1 (CropRect.mk 0.2 0.2 0.5 0.5))
  = 0.2.
Proof.
  apply (dragCrop_top_right false 0.9 0.1 (CropRect.mk 0.2 0.2 0.5 0.5)).
  unfold validCrop. simpl. lra.
Defined.

(** The top-right handle on a wide crop: the rectangle leaves the image. *)
Lemma dragCrop_top_right_wide :
  validCrop (CropRect.mk 0 0.2 0.8 0.2)
  /\ CropRect.y (dragCrop Handle.tr false 0.8 0.2 (CropRect.mk 0 0.2 0.8 0.2))
     = -0.4.
Proof.
  split; [unfold validCrop; simpl; lra |].
  unfold dragCrop, cornerSize.
  cbn [CropRect.x CropRect.y CropRect.w CropRect.h].
  replace (0.8 - 0) with 0.8 by lra.
  replace (0.2 - (0.2 + 0.2)) with (-0.2) by lra.
  replace (Rabs 0.8) with 0.8 by (unfold Rabs; rdecide).
  replace (Rabs (-0.2)) with 0.2 by (unfold Rabs; rdecide).
  replace (0.8 / 0.2) with 4 by lra.
  replace (0.2 - 0.8 / 4) with 0 by lra.
  replace (0.8 - 0.2 * 4) with 0 by lra.
  destruct (Rlt_dec (Rabs 0) (Rabs 0)) as [F | _]; [lra |].
  destruct (Rgt_dec (0 + 0.2 * 4) 1) as [F | _]; [lra |].
  destruct (Rlt_dec (0.2 + 0.2 - 0.2) 0) as [F | _]; [lra |].
  cbn [CropRect.y]. unfold Rmax. rdecide.
Qed.


(** ** The undo history of [App] *)

Lemma snapshotAt_last {A : Type} (l : list A) (s : A) :
  snapshotAt (l ++ [s]) (Z.of_nat (length l)) = Some s.
Proof.
  unfold snapshotAt.
  destruct (Z.of_nat (length l) <? 0)%Z eqn:E; [apply Z.ltb_lt in E; lia |].
  rewrite Nat2Z.id, nth_error_app2 by lia.
  rewrite Nat.sub_diag. reflexivity.
Qed.

Lemma snapshotAt_tl {A : Type} (l : list A) (i : Z) :
  (0 <= i)%Z -> snapshotAt (tl l) i = snapshotAt l (i + 1).
Proof.
  intros Hi. unfold snapshotAt.
  destruct (i <? 0)%Z eqn:E; [apply Z.ltb_lt in E; lia |].
  destruct (i + 1 <? 0)%Z eqn:E'; [apply Z.ltb_lt in E'; lia |].
  replace (Z.to_nat (i + 1)) with (S (Z.to_nat i)) by lia.
  destruct l; [destruct (Z.to_nat i); reflexivity | reflexivity].
Qed.

Lemma snapshotAt_inside {A : Type} (l : list A) (i : Z) :
  (0 <= i < Z.of_nat (length l))%Z -> exists s, snapshotAt l i = Some s.
Proof.
  intros Hi. unfold snapshotAt.
  destruct (i <? 0)%Z eqn:E; [apply Z.ltb_lt in E; lia |].
  destruct (nth_error l (Z.to_nat i)) eqn:N; [eauto |].
  apply nth_error_None in N. lia.
Qed.

(** X29.  Committing a change keeps the history within 50 snapshots with
    the index on its last entry, which is the committed map; nothing is
    left to redo. *)
Theorem commitSettings_history {A : Type} (next : A) (st : AppState.t A) :
  historyOk st ->
  historyOk (commitSettings next st)
  /\ inSync (commitSettings next st)
  /\ AppState.historyIndex (commitSettings next st)
     = (Z.of_nat (length (AppState.history (commitSettings next st))) - 1)%Z
  /\ redo (commitSettings next st) = commitSettings next st.
Proof.
  intros [[Hlo Hhi] Hlen].
  destruct st as [cur hist idx]. cbn [AppState.history AppState.historyIndex] in *.
  unfold commitSettings, pushHistory.
  cbn [AppState.history AppState.historyIndex AppState.settingsMap].
  set (kept := firstn (Z.to_nat (idx + 1)) hist).
  assert (Hk : length kept = Z.to_nat (idx + 1)).
  { unfold kept. rewrite length_firstn. lia. }
  assert (Hn : length (kept ++ [next]) = S (Z.to_nat (idx + 1))).
  { rewrite length_app, Hk. simpl. lia. }
  assert (Core :
    historyOk (AppState.mk next
                 (if (50 <? length (kept ++ [next]))%nat
                  then tl (kept ++ [next]) else kept ++ [next])
                 (Z.min (idx + 1) 49))
    /\ inSync (AppState.mk next
                 (if (50 <? length (kept ++ [next]))%nat
                  then tl (kept ++ [next]) else kept ++ [next])
                 (Z.min (idx + 1) 49))
    /\ Z.min (idx + 1) 49
       = (Z.of_nat (length (if (50 <? length (kept ++ [next]))%nat
                            then tl (kept ++ [next]) else kept ++ [next]))
          - 1)%Z).
  { unfold historyOk, inSync.
    cbn [AppState.history AppState.historyIndex AppState.settingsMap].
    destruct (Nat.ltb_spec 50 (length (kept ++ [next]))) as [L | L].
    - assert (Ei : idx = 49%Z) by lia.
      assert (Ek : length kept = 50%nat) by lia.
      assert (Et : length (tl (kept ++ [next])) = 50%nat).
      { destruct (kept ++ [next]) eqn:E; simpl in *; lia. }
      rewrite Et. subst idx. repeat split; try lia.
      change (Z.min (49 + 1) 49) with 49%Z.
      rewrite snapshotAt_tl by lia.
      change (49 + 1)%Z with (Z.of_nat 50). rewrite <- Ek.
      apply snapshotAt_last.
    - rewrite Hn. repeat split; try lia.
      replace (Z.min (idx + 1) 49) with (Z.of_nat (length kept)) by lia.
      apply snapshotAt_last. }
  destruct Core as (C1 & C2 & C3).
  split; [exact C1 |]. split; [exact C2 |]. split; [exact C3 |].
  unfold redo. cbn [AppState.history AppState.historyIndex].
  rewrite C3.
  rewrite Z.ltb_irrefl. reflexivity.
Qed.

Lemma commitSettings_history_witness :
  redo (commitSettings 7%nat (AppState.mk 0%nat [] (-1)%Z))
  = commitSettings 7%nat (AppState.mk 0%nat [] (-1)%Z).
Proof.
  apply (commitSettings_history 7%nat (AppState.mk 0%nat [] (-1)%Z)).
  unfold historyOk. simpl. lia.
Defined.

Lemma undo_moves {A : Type} (cur : A) (hist : list A) (idx : Z) :
  (0 < idx < Z.of_nat (length hist))%Z ->
  exists s, snapshotAt hist (idx - 1) = Some s
            /\ undo (AppState.mk cur hist idx) = AppState.mk s hist (idx - 1).
Proof.
  intros Hi. destruct (snapshotAt_inside hist (idx - 1)) as [s Es]; [lia |].
  exists s. split; [exact Es |]. unfold undo.
  cbn [AppState.history AppState.historyIndex].
  destruct (Z.ltb_spec 0 idx); [| lia]. rewrite Es. reflexivity.
Qed.

Lemma redo_moves {A : Type} (cur : A) (hist : list A) (idx : Z) :
  (-1 <= idx < Z.of_nat (length hist) - 1)%Z ->
  exists s, snapshotAt hist (idx + 1) = Some s
            /\ redo (AppState.mk cur hist idx) = AppState.mk s hist (idx + 1).
Proof.
  intros Hi. destruct (snapshotAt_inside hist (idx + 1)) as [s Es]; [lia |].
  exists s. split; [exact Es |]. unfold redo.
  cbn [AppState.history AppState.historyIndex].
  destruct (Z.ltb_spec idx (Z.of_nat (length hist) - 1)); [| lia].
  rewrite Es. reflexivity.
Qed.

Lemma undo_stays {A : Type} (st : AppState.t A) :
  (AppState.historyIndex st <= 0)%Z -> undo st = st.
Proof.
  intros Hi. unfold undo.
  destruct (Z.ltb_spec 0 (AppState.historyIndex st)); [lia | reflexivity].
Qed.

Lemma redo_stays {A : Type} (st : AppState.t A) :
  (Z.of_nat (length (AppState.history st)) - 1 <= AppState.historyIndex st)%Z ->
  redo st = st.
Proof.
  intros Hi. unfold redo.
  destruct (Z.ltb_spec (AppState.historyIndex st)
              (Z.of_nat (length (AppState.history st)) - 1));
    [lia | reflexivity].
Qed.

(** X30.  On a history whose index holds the current map, undo and redo
    keep that invariant; redo after an undo that moved, and undo after a
    redo that moved, restore the state; and undo does nothing at index 0,
    so the oldest snapshot cannot be undone. *)
Theorem undo_redo {A : Type} (st : AppState.t A) :
  historyOk st -> inSync st ->
  (historyOk (undo st) /\ inSync (undo st))
  /\ (historyOk (redo st) /\ inSync (redo st))
  /\ ((0 < AppState.historyIndex st)%Z -> redo (undo st) = st)
  /\ ((AppState.historyIndex st
       < Z.of_nat (length (AppState.history st)) - 1)%Z ->
      undo (redo st) = st)
  /\ ((AppState.historyIndex st <= 0)%Z -> undo st = st).
Proof.
  intros Hok Hs. pose proof Hok as [[Hlo Hhi] Hlen].
  destruct st as [cur hist idx].
  cbn [AppState.history AppState.historyIndex AppState.settingsMap] in *.
  assert (Hi : (0 <= idx)%Z).
  { unfold inSync, snapshotAt in Hs. cbn in Hs.
    destruct (idx <? 0)%Z eqn:E; [discriminate |].
    apply Z.ltb_ge in E. exact E. }
  unfold inSync in Hs.
  cbn [AppState.history AppState.historyIndex AppState.settingsMap] in Hs.
  split; [| split; [| split; [| split]]].
  - destruct (Z.ltb_spec 0 idx) as [P | P].
    + destruct (undo_moves cur hist idx) as (s & Es & ->); [lia |].
      split; [split; cbn; lia | exact Es].
    + rewrite undo_stays by (cbn; lia). split; [exact Hok | exact Hs].
  - destruct (Z.ltb_spec idx (Z.of_nat (length hist) - 1)) as [P | P].
    + destruct (redo_moves cur hist idx) as (s & Es & ->); [lia |].
      split; [split; cbn; lia | exact Es].
    + rewrite redo_stays by (cbn; lia). split; [exact Hok | exact Hs].
  - intros P. destruct (undo_moves cur hist idx) as (s & Es & ->); [lia |].
    destruct (redo_moves s hist (idx - 1)) as (s' & Es' & ->); [lia |].
    replace (idx - 1 + 1)%Z with idx in * by lia.
    rewrite Hs in Es'. injection Es' as <-. reflexivity.
  - intros P. destruct (redo_moves cur hist idx) as (s & Es & ->); [lia |].
    destruct (undo_moves s hist (idx + 1)) as (s' & Es' & ->); [lia |].
    replace (idx + 1 - 1)%Z with idx in * by lia.
    rewrite Hs in Es'. injection Es' as <-. reflexivity.
  - intros P. apply undo_stays. exact P.
Qed.

Lemma undo_redo_witness :
  redo (undo (AppState.mk 8%nat [7; 8]%nat 1%Z))
  = AppState.mk 8%nat [7; 8]%nat 1%Z.
Proof.
  apply (undo_redo (AppState.mk 8%nat [7; 8]%nat 1%Z)).
  - unfold historyOk. simpl. lia.
  - reflexivity.
  - simpl. lia.
Defined.
